(** * csim: a trace-driven LRU cache simulator (csim.c)

    A shallow embedding of [simulate], [process_trace_file] and the part of
    [main] that follows option parsing, with the properties of the
    simulator's specification stated and settled against it.

    Conventions of the embedding:
    - [unsigned long long] and [unsigned long] values are [Z] in
      [0, 2^64), every arithmetic result reduced by [wrap];
    - [int] values are [Z]; the [valid] and [dirty] fields, which only ever
      hold 0 or 1, are [bool];
    - the cache is the flat array of the program, a [list line] in set-major
      order; [cache_set = cache + set * E] is the window of [E] lines that
      starts at that offset;
    - C strings are [list ascii] without the terminating NUL. *)

From Stdlib Require Import ZArith Ascii String Lia.
From stdpp Require Import base tactics option list sorting.

Local Open Scope Z_scope.

(** ** Machine integers *)

Definition MAXADDR : Z := 18446744073709551615.
Definition MAXSIZE : Z := 1024.
Definition MAXBITS : Z := 64.
Definition LINELEN : nat := 30.
Definition INT_MAX : Z := 2147483647.

(** Reduction of an [unsigned long] / [unsigned long long] result. *)
Definition wrap (z : Z) : Z := z mod 2 ^ 64.

(** ** Cache engine *)

(** [cache_line_t]. *)
Record line : Type := Line { valid : bool; tag : Z; dirty : bool }.

Global Instance line_inhabited : Inhabited line := populate (Line false 0 false).

Definition set_tag (t : Z) (l : line) : line := Line (valid l) t (dirty l).
Definition set_valid (v : bool) (l : line) : line := Line v (tag l) (dirty l).
Definition set_dirty (d : bool) (l : line) : line := Line (valid l) (tag l) d.

(** Modelled from the spec: [csim_stats_t] is declared in cachelab.h, which
    is not among the sources.  The spec gives five unsigned integer counters;
    they are taken as [unsigned long], the type the program casts [B] to
    before adding it to them. *)
Record csim_stats : Type := Stats {
  hits : Z;
  misses : Z;
  evictions : Z;
  dirty_bytes : Z;
  dirty_evictions : Z
}.

Definition incr_hits (st : csim_stats) : csim_stats :=
  Stats (wrap (hits st + 1)) (misses st) (evictions st) (dirty_bytes st)
        (dirty_evictions st).
Definition incr_misses (st : csim_stats) : csim_stats :=
  Stats (hits st) (wrap (misses st + 1)) (evictions st) (dirty_bytes st)
        (dirty_evictions st).
Definition incr_evictions (st : csim_stats) : csim_stats :=
  Stats (hits st) (misses st) (wrap (evictions st + 1)) (dirty_bytes st)
        (dirty_evictions st).
Definition add_dirty_evictions (n : Z) (st : csim_stats) : csim_stats :=
  Stats (hits st) (misses st) (evictions st) (dirty_bytes st)
        (wrap (dirty_evictions st + n)).
Definition add_dirty_bytes (n : Z) (st : csim_stats) : csim_stats :=
  Stats (hits st) (misses st) (evictions st) (wrap (dirty_bytes st + n))
        (dirty_evictions st).

(** The operation of a trace record: [strcmp(op, "S") == 0] is [Store]. *)
Inductive operation : Type := Load | Store.

Definition is_store (op : operation) : bool :=
  match op with Store => true | Load => false end.

(** What the scanning loop of [simulate] leaves behind: it returns from
    inside the loop on a hit at [i]; it breaks with [res = 0] and [j = i] at
    the first invalid line; it runs to [i = E] with [res = -1]. *)
Inductive scan_result : Type :=
  | ScanHit (i : nat)
  | ScanInvalid (j : nat)
  | ScanFull.

(** [for (int i = 0; i < E; i++)], with [n] iterations left. *)
Fixpoint scan (t : Z) (cache_set : list line) (n i : nat) : scan_result :=
  match n with
  | O => ScanFull
  | S n' =>
      if negb (valid (cache_set !!! i)) then ScanInvalid i
      else if tag (cache_set !!! i) =? t then ScanHit i
      else scan t cache_set n' (S i)
  end.

(** [for (j = i; j < E - 1 && (cache_set + j + 1)->valid == 1; j++)]: the
    tag and the dirty bit of line [j + 1] are copied into line [j].  [n] is
    [E - 1 - j]; the result is the final [j] and the set. *)
Fixpoint hit_shift (cache_set : list line) (n j : nat) : nat * list line :=
  match n with
  | O => (j, cache_set)
  | S n' =>
      if valid (cache_set !!! S j) then
        let nxt := cache_set !!! S j in
        hit_shift
          (alter (fun l => set_dirty (dirty nxt) (set_tag (tag nxt) l)) j
                 cache_set)
          n' (S j)
      else (j, cache_set)
  end.

(** [for (k = 0; k < E - 1; k++)] of the eviction path, [n] iterations
    left. *)
Fixpoint evict_shift (cache_set : list line) (n k : nat) : nat * list line :=
  match n with
  | O => (k, cache_set)
  | S n' =>
      let nxt := cache_set !!! S k in
      evict_shift
        (alter (fun l => set_dirty (dirty nxt) (set_tag (tag nxt) l)) k
               cache_set)
        n' (S k)
  end.

(** The body of [simulate] on the window [cache_set] of [E] lines. *)
Definition simulate_set (cache_set : list line) (t : Z) (E B : Z)
    (stats : csim_stats) (op : operation) : list line * csim_stats :=
  match scan t cache_set (Z.to_nat E) 0 with
  | ScanHit i =>
      let stats := incr_hits stats in
      let '(j, cache_set) := hit_shift cache_set (Z.to_nat (E - 1) - i) i in
      let cache_set := alter (set_tag t) j cache_set in
      let cache_set :=
        if is_store op then alter (set_dirty true) j cache_set
        else cache_set in
      (cache_set, stats)
  | ScanInvalid j =>
      let stats := incr_misses stats in
      let cache_set := alter (set_tag t) j cache_set in
      let cache_set := alter (set_valid true) j cache_set in
      let cache_set :=
        if is_store op then alter (set_dirty true) j cache_set
        else cache_set in
      (cache_set, stats)
  | ScanFull =>
      let stats := incr_misses stats in
      let stats := incr_evictions stats in
      let stats :=
        if dirty (cache_set !!! 0%nat) then add_dirty_evictions (wrap B) stats
        else stats in
      let '(k, cache_set) := evict_shift cache_set (Z.to_nat (E - 1)) 0 in
      let cache_set := alter (set_tag t) k cache_set in
      let cache_set := alter (set_dirty false) k cache_set in
      let cache_set :=
        if is_store op then alter (set_dirty true) k cache_set
        else cache_set in
      (cache_set, stats)
  end.

(** The offset [set * (unsigned long)E] of the addressed set. *)
Definition set_offset (set E : Z) : nat := Z.to_nat (wrap (set * wrap E)).

(** The window of [E] lines at [cache + set * E]. *)
Definition cache_set_of (cache : list line) (set E : Z) : list line :=
  take (Z.to_nat E) (drop (set_offset set E) cache).

(** [simulate]: the body runs on the addressed window, the rest of the
    array is untouched. *)
Definition simulate (cache : list line) (t set : Z) (E B : Z)
    (stats : csim_stats) (op : operation) : list line * csim_stats :=
  let base := set_offset set E in
  let '(cache_set, stats) :=
    simulate_set (cache_set_of cache set E) t E B stats op in
  (take base cache ++ cache_set ++ drop (base + Z.to_nat E) cache, stats).

(** ** Trace parser *)

Definition nl : ascii := ascii_of_nat 10.
Definition nul : ascii := ascii_of_nat 0.

Fixpoint drop_while {A} (p : A -> bool) (l : list A) : list A :=
  match l with
  | x :: l' => if p x then drop_while p l' else l
  | [] => []
  end.

Fixpoint take_while {A} (p : A -> bool) (l : list A) : list A :=
  match l with
  | x :: l' => if p x then x :: take_while p l' else []
  | [] => []
  end.

Definition ascii_eqb (a b : ascii) : bool := Ascii.eqb a b.

Definition mem_ascii (c : ascii) (cs : list ascii) : bool :=
  existsb (ascii_eqb c) cs.

Fixpoint str_eqb (a b : list ascii) : bool :=
  match a, b with
  | [], [] => true
  | x :: a', y :: b' => ascii_eqb x y && str_eqb a' b'
  | _, _ => false
  end.

(** The characters [fgets] stores when at most [k] more fit: it stops after
    a newline, at end of file, or when the buffer is full.  The second
    component is the unread rest of the file. *)
Fixpoint fgets_chars (k : nat) (file : list ascii) : list ascii * list ascii :=
  match k, file with
  | O, _ => ([], file)
  | S _, [] => ([], [])
  | S k', c :: file' =>
      if ascii_eqb c nl then ([c], file')
      else let '(buf, rest) := fgets_chars k' file' in (c :: buf, rest)
  end.

(** [fgets(linebuf, n, tfp)]: [None] is the NULL returned at end of file. *)
Definition fgets (n : nat) (file : list ascii)
    : option (list ascii * list ascii) :=
  match file with
  | [] => None
  | _ :: _ => Some (fgets_chars (n - 1) file)
  end.

(** The C string held by a buffer: its bytes up to the first NUL. *)
Definition cstring (buf : list ascii) : list ascii :=
  take_while (fun c => negb (ascii_eqb c nul)) buf.

(** [strtok]: the token, if any, and the saved position for the next call.
    Leading delimiters are skipped; the token runs to the next delimiter,
    which is consumed, or to the end of the string. *)
Definition strtok (s delim : list ascii) : option (list ascii) * list ascii :=
  match drop_while (fun c => mem_ascii c delim) s with
  | [] => (None, [])
  | s1 =>
      (Some (take_while (fun c => negb (mem_ascii c delim)) s1),
       tail (drop_while (fun c => negb (mem_ascii c delim)) s1))
  end.

(** [isspace] in the C locale. *)
Definition isspace (c : ascii) : bool :=
  let n := nat_of_ascii c in
  (n =? 32)%nat || ((9 <=? n)%nat && (n <=? 13)%nat).

(** Value of a character as a digit, letters counting from 10. *)
Definition digit_val (c : ascii) : option Z :=
  let n := Z.of_nat (nat_of_ascii c) in
  if (48 <=? n) && (n <=? 57) then Some (n - 48)
  else if (97 <=? n) && (n <=? 122) then Some (n - 87)
  else if (65 <=? n) && (n <=? 90) then Some (n - 55)
  else None.

Definition is_digit (base : Z) (c : ascii) : bool :=
  match digit_val c with
  | Some d => d <? base
  | None => false
  end.

Definition digits_value (base : Z) (ds : list ascii) : Z :=
  fold_left (fun acc c => acc * base + default 0 (digit_val c)) ds 0.

(** The optional [0x] / [0X] of a base-16 numeral, skipped only when a hex
    digit follows it. *)
Definition skip_hex_prefix (base : Z) (s : list ascii) : list ascii :=
  match s with
  | z :: x :: h :: s' =>
      if (base =? 16) && ascii_eqb z "0"
         && (ascii_eqb x "x" || ascii_eqb x "X") && is_digit 16 h
      then h :: s' else s
  | _ => s
  end.

(** [strtoull(nptr, &endptr, base)] and [strtoul] (both 64 bits wide): the
    converted value and the string [endptr] points to.  White space and one
    sign are skipped; without any digit the value is 0 and [endptr] is
    [nptr]; a numeral beyond [2^64 - 1] converts to [ULLONG_MAX]; a numeral
    with a minus sign is negated in unsigned arithmetic. *)
Definition strtoull (nptr : list ascii) (base : Z) : Z * list ascii :=
  let s := drop_while isspace nptr in
  let '(neg, s) :=
    match s with
    | c :: s' =>
        if ascii_eqb c "-" then (true, s')
        else if ascii_eqb c "+" then (false, s')
        else (false, s)
    | [] => (false, s)
    end in
  let s := skip_hex_prefix base s in
  match take_while (is_digit base) s with
  | [] => (0, nptr)
  | ds =>
      let v := digits_value base ds in
      let endptr := drop_while (is_digit base) s in
      if v >? MAXADDR then (MAXADDR, endptr)
      else (if neg : bool then wrap (- v) else v, endptr)
  end.

Definition tag_of (s b addr : Z) : Z := Z.shiftr addr (s + b).

Definition set_index (s b addr : Z) : Z :=
  if s =? 0 then 0
  else Z.shiftr (wrap (Z.shiftl addr (MAXBITS - s - b))) (MAXBITS - s).

(** One access record, as handed to [simulate]. *)
Record access : Type := Access { acc_op : operation; acc_tag : Z; acc_set : Z }.

(** The body of the [while] loop of [process_trace_file] up to the call of
    [simulate]: [None] stands for [return 1]. *)
Definition parse_line (s b : Z) (linebuf : list ascii) : option access :=
  let linebuf := cstring linebuf in
  if negb (mem_ascii nl linebuf) then None
  else
    match strtok linebuf [" "%char] with
    | (None, _) => None
    | (Some op, save) =>
        if negb (str_eqb op ["L"%char]) && negb (str_eqb op ["S"%char])
        then None
        else
          let '(addr_str, save) := strtok save [","%char] in
          let '(size_str, save) := strtok save [nl] in
          match addr_str, size_str with
          | Some addr_str, Some size_str =>
              let '(addr, endptr) := strtoull addr_str 16 in
              if negb (str_eqb endptr []) || (addr >? MAXADDR) then None
              else
                let '(size, endptr) := strtoull size_str 10 in
                if negb (str_eqb endptr []) || (size >? MAXSIZE) then None
                else
                  Some (Access
                          (if str_eqb op ["S"%char] then Store else Load)
                          (tag_of s b addr) (set_index s b addr))
          | _, _ => None
          end
    end.

(** The [while (fgets(...))] loop.  Every call of [fgets] that succeeds
    consumes at least one character, so [fuel = length file] iterations
    always reach the end of the file. *)
Fixpoint process_lines (fuel : nat) (cache : list line) (s E b B : Z)
    (file : list ascii) (stats : csim_stats) : Z * list line * csim_stats :=
  match fuel with
  | O => (0, cache, stats)
  | S fuel' =>
      match fgets LINELEN file with
      | None => (0, cache, stats)
      | Some (linebuf, file') =>
          match parse_line s b linebuf with
          | None => (1, cache, stats)
          | Some a =>
              let '(cache, stats) :=
                simulate cache (acc_tag a) (acc_set a) E B stats (acc_op a) in
              process_lines fuel' cache s E b B file' stats
          end
      end
  end.

(** [process_trace_file]: the return code, and the cache and the statistics
    as the call leaves them.  [trace] is the content of the file, [None]
    when [fopen] fails. *)
Definition process_trace_file (cache : list line) (s E b B : Z)
    (trace : option (list ascii)) (stats : csim_stats)
    : Z * list line * csim_stats :=
  match trace with
  | None => (1, cache, stats)
  | Some file => process_lines (length file) cache s E b B file stats
  end.

(** ** Front end *)

(** How a run ends: the summary handed to [printSummary] with exit status 0,
    a diagnostic with exit status 1, or no defined behaviour. *)
Inductive outcome : Type :=
  | Summary (stats : csim_stats)
  | ExitFailure (msg : string)
  | Undefined.

(** [(int)pow(2, e)]: the power is exact in [double]; the conversion to
    [int] truncates toward zero and has no defined result when the value
    does not fit in [int]. *)
Definition int_of_pow2 (e : Z) : option Z :=
  if e <? 0 then Some 0
  else if 2 ^ e <=? INT_MAX then Some (2 ^ e)
  else None.

(** The loop of [main] that clears the array: [n] lines, all invalid and
    clean, with tag [MAXADDR]. *)
Definition init_cache (n : Z) : list line :=
  replicate (Z.to_nat n) (Line false MAXADDR false).

Definition init_stats : csim_stats := Stats 0 0 0 0 0.

(** The final loop of [main]: [B] is added to [dirty_bytes] for every line
    of the array whose dirty field is 1. *)
Definition count_dirty_bytes (cache : list line) (B : Z) (stats : csim_stats)
    : csim_stats :=
  fold_left (fun st l => if dirty l then add_dirty_bytes (wrap B) st else st)
            cache stats.

(** [main] after option parsing, for a run given [-s s -E E -b b -t trace]:
    [s], [E] and [b] are the values [atoi] returned.  [S_] and [B] are the
    [S] and [B] of the program.  The program converts the two powers while
    it reads the options; the model converts them where they are first
    used, after the checks, so that a geometry the checks reject ends with
    its diagnostic.  A geometry that passes the checks but whose [S], [B]
    or [S * E] is not an [int] has no defined outcome.  [malloc] is taken
    to succeed. *)
Definition csim_main (s E b : Z) (trace : option (list ascii)) : outcome :=
  if s + b >? 64 then ExitFailure "Error: s + b is too large"
  else if (s <? 0) || (E <=? 0) || (b <? 0) then
    ExitFailure "Mandatory arguments missing or zero."
  else
    match int_of_pow2 s, int_of_pow2 b with
    | Some S_, Some B =>
        if S_ * E >? INT_MAX then Undefined
        else
          let cache := init_cache (S_ * E) in
          let '(rc, cache, stats) :=
            process_trace_file cache s E b B trace init_stats in
          if rc =? 1 then ExitFailure "Error while parsing trace file."
          else Summary (count_dirty_bytes cache B stats)
    | _, _ => Undefined
    end.

(** *** The options of [main] *)

Definition INT_MIN : Z := -2147483648.

(** [atoi]: white space and one sign are skipped and the decimal digits
    that follow are converted; the result has no defined value when it is
    not an [int]. *)
Definition atoi (nptr : list ascii) : option Z :=
  let s := drop_while isspace nptr in
  let '(neg, s) :=
    match s with
    | c :: s' =>
        if ascii_eqb c "-" then (true, s')
        else if ascii_eqb c "+" then (false, s')
        else (false, s)
    | [] => (false, s)
    end in
  let v := digits_value 10 (take_while (is_digit 10) s) in
  let v := if neg : bool then - v else v in
  if (INT_MIN <=? v) && (v <=? INT_MAX) then Some v else None.

(** The variables the option loop of [main] sets.  [S] and [B] hold a value
    only once [-s] and [-b] have been read: [None] is an uninitialised
    variable, or a power that is not an [int]. *)
Record main_vars : Type := Vars {
  v_s : Z;
  v_S : option Z;
  v_E : Z;
  v_b : Z;
  v_B : option Z;
  v_trace_file : option (list ascii)
}.

(** [int s = 0, S, E = 0, b = 0, B; char *trace_file = NULL]. *)
Definition initial_vars : main_vars := Vars 0 None 0 0 None None.

(** How [main] ends: after [help()] with exit status 0, or as [outcome]
    tells. *)
Inductive main_outcome : Type :=
  | HelpExit
  | Ran (o : outcome).

(** One turn of [while ((opt = getopt(argc, argv, "vhs:b:E:t:")) != -1)]:
    [opt] is the character [getopt] returned and [optarg] its argument.
    The turn either goes on with new variables or ends the program. *)
Definition option_step (v : main_vars) (opt : ascii) (optarg : list ascii)
    : main_vars + main_outcome :=
  if ascii_eqb opt "h" then inr HelpExit
  else if ascii_eqb opt "v" then inl v
  else if ascii_eqb opt "s" then
    match atoi optarg with
    | Some n =>
        inl (Vars n (int_of_pow2 n) (v_E v) (v_b v) (v_B v) (v_trace_file v))
    | None => inr (Ran Undefined)
    end
  else if ascii_eqb opt "b" then
    match atoi optarg with
    | Some n =>
        inl (Vars (v_s v) (v_S v) (v_E v) n (int_of_pow2 n) (v_trace_file v))
    | None => inr (Ran Undefined)
    end
  else if ascii_eqb opt "E" then
    match atoi optarg with
    | Some n =>
        inl (Vars (v_s v) (v_S v) n (v_b v) (v_B v) (v_trace_file v))
    | None => inr (Ran Undefined)
    end
  else if ascii_eqb opt "t" then
    inl (Vars (v_s v) (v_S v) (v_E v) (v_b v) (v_B v) (Some optarg))
  else inr (Ran (ExitFailure "Error while parsing arguments.")).

(** The option loop, over the successive results of [getopt]. *)
Fixpoint option_loop (v : main_vars) (opts : list (ascii * list ascii))
    : main_vars + main_outcome :=
  match opts with
  | [] => inl v
  | (opt, optarg) :: opts' =>
      match option_step v opt optarg with
      | inl v' => option_loop v' opts'
      | inr r => inr r
      end
  end.

(** [trace_file == NULL]. *)
Definition is_null {A} (p : option A) : bool :=
  match p with None => true | Some _ => false end.

(** [main] from the end of the option loop on.  [fs] gives the content of
    the file of a name, [None] when it cannot be opened.  The sum [s + b]
    is an [int] addition. *)
Definition main_after_options (v : main_vars)
    (fs : list ascii -> option (list ascii)) : outcome :=
  if negb ((INT_MIN <=? v_s v + v_b v) && (v_s v + v_b v <=? INT_MAX))
  then Undefined
  else if v_s v + v_b v >? 64 then ExitFailure "Error: s + b is too large"
  else if (v_s v <? 0) || (v_E v <=? 0) || (v_b v <? 0)
          || is_null (v_trace_file v)
  then ExitFailure "Mandatory arguments missing or zero."
  else
    match v_S v, v_B v, v_trace_file v with
    | Some S_, Some B, Some trace_file =>
        if S_ * v_E v >? INT_MAX then Undefined
        else
          let cache := init_cache (S_ * v_E v) in
          let '(rc, cache, stats) :=
            process_trace_file cache (v_s v) (v_E v) (v_b v) B
              (fs trace_file) init_stats in
          if rc =? 1 then ExitFailure "Error while parsing trace file."
          else Summary (count_dirty_bytes cache B stats)
    | _, _, _ => Undefined
    end.

(** [main], for the results [opts] of [getopt] and the files [fs]. *)
Definition csim (opts : list (ascii * list ascii))
    (fs : list ascii -> option (list ascii)) : main_outcome :=
  match option_loop initial_vars opts with
  | inl v => Ran (main_after_options v fs)
  | inr r => r
  end.

(** The argument of the last occurrence of the option [c]. *)
Fixpoint last_arg (c : ascii) (opts : list (ascii * list ascii))
    : option (list ascii) :=
  match opts with
  | [] => None
  | (opt, optarg) :: opts' =>
      match last_arg c opts' with
      | Some a => Some a
      | None => if ascii_eqb opt c then Some optarg else None
      end
  end.

(** A trace file from its lines, each one terminated by a newline. *)
Definition trace_of_lines (ls : list string) : list ascii :=
  concat (map (fun l => list_ascii_of_string l ++ [nl]) ls).

(** ** Runs of the engine *)

Definition step (E B : Z) (c : list line * csim_stats) (a : access)
    : list line * csim_stats :=
  simulate c.1 (acc_tag a) (acc_set a) E B c.2 (acc_op a).

(** The accesses of [tr], applied in order. *)
Definition run_accesses (E B : Z) (c : list line * csim_stats)
    (tr : list access) : list line * csim_stats :=
  fold_left (step E B) tr c.

(** The state [main] hands to [process_trace_file], for [S_] sets. *)
Definition initial (S_ E : Z) : list line * csim_stats :=
  (init_cache (S_ * E), init_stats).

(** A trace of accesses whose set indices address one of [S_] sets. *)
Definition in_range (S_ : Z) (tr : list access) : Prop :=
  Forall (fun a => 0 <= acc_set a < S_) tr.

(** The records [process_lines] hands to [simulate] before it stops. *)
Fixpoint applied_records (fuel : nat) (s b : Z) (file : list ascii)
    : list access :=
  match fuel with
  | O => []
  | S fuel' =>
      match fgets LINELEN file with
      | None => []
      | Some (linebuf, file') =>
          match parse_line s b linebuf with
          | None => []
          | Some a => a :: applied_records fuel' s b file'
          end
      end
  end.

Definition trace_records (s b : Z) (file : list ascii) : list access :=
  applied_records (length file) s b file.





(** ** Writing a trace *)

(** The character of a digit below 16, letters in lower case. *)
Definition digit_char (d : Z) : ascii :=
  ascii_of_nat (Z.to_nat (if d <? 10 then 48 + d else 87 + d)).

(** The digits of [z] in base [base], least significant first. *)
Fixpoint rev_digits (base : Z) (fuel : nat) (z : Z) : list ascii :=
  match fuel with
  | O => []
  | S fuel' =>
      digit_char (z mod base)
      :: (if z / base =? 0 then [] else rev_digits base fuel' (z / base))
  end.


(** The numeral of [z] in base [base], without sign, prefix or padding. *)
Definition numeral (base z : Z) : list ascii := rev (rev_digits base 64 z).

(** A record of a trace: the operation, the address and the size. *)
Record trace_record : Type :=
  Record_ { rec_op : operation; rec_addr : Z; rec_size : Z }.

Definition op_char (op : operation) : ascii :=
  match op with Load => "L"%char | Store => "S"%char end.

(** The line of a record: operation, space, address in hexadecimal, comma,
    size in decimal, newline. *)
Definition format_record (r : trace_record) : list ascii :=
  op_char (rec_op r) :: " "%char
  :: numeral 16 (rec_addr r) ++ ","%char :: numeral 10 (rec_size r) ++ [nl].

Definition format_trace (rs : list trace_record) : list ascii :=
  concat (map format_record rs).



(** ** Recency order of a set *)

(** A valid line as its tag and its dirty bit. *)
Abbreviation entry := (Z * bool)%type.

Definition line_of (e : entry) : line := Line true e.1 e.2.

Definition empty_line : line := Line false MAXADDR false.

(** A set of [E] lines whose valid lines, in order, are [vs], followed by
    lines never written. *)
Definition repr (E : nat) (vs : list entry) : list line :=
  map line_of vs ++ replicate (E - length vs) empty_line.

(** The array made of the sets [sets], in set-major order. *)
Definition flatten (E : nat) (sets : list (list entry)) : list line :=
  concat (map (repr E) sets).

Fixpoint find_tag (t : Z) (vs : list entry) : option nat :=
  match vs with
  | [] => None
  | e :: vs' => if e.1 =? t then Some O else S <$> find_tag t vs'
  end.

Definition last_dirty (vs : list entry) : bool :=
  match last vs with
  | Some e => e.2
  | None => false
  end.

(** What one access does to the valid lines of its set.  On a hit the line
    leaves its position and a line with its tag is appended; the dirty bit
    of that line is the one the last position held before the access, or
    [true] for a store. *)
Definition lru_step (E : nat) (vs : list entry) (t : Z) (op : operation)
    : list entry :=
  match find_tag t vs with
  | Some i => delete i vs ++ [(t, is_store op || last_dirty vs)]
  | None =>
      if (length vs <? E)%nat then vs ++ [(t, is_store op)]
      else tail vs ++ [(t, is_store op)]
  end.

Definition lru_stats (E : nat) (B : Z) (vs : list entry) (t : Z)
    (stats : csim_stats) : csim_stats :=
  match find_tag t vs with
  | Some _ => incr_hits stats
  | None =>
      if (length vs <? E)%nat then incr_misses stats
      else
        let stats := incr_evictions (incr_misses stats) in
        if dirty (repr E vs !!! O) then add_dirty_evictions (wrap B) stats
        else stats
  end.

Definition abs_step (E : nat) (sets : list (list entry)) (a : access)
    : list (list entry) :=
  alter (fun vs => lru_step E vs (acc_tag a) (acc_op a))
        (Z.to_nat (acc_set a)) sets.

Definition abs_run (E : nat) (sets : list (list entry)) (tr : list access)
    : list (list entry) :=
  fold_left (abs_step E) tr sets.

(** The sets reached from the empty cache of [S_] sets of [E] lines. *)
Definition reached (E S_ : Z) (tr : list access) : list (list entry) :=
  abs_run (Z.to_nat E) (replicate (Z.to_nat S_) []) tr.

(** Sets of at most [E] valid lines. *)
Definition bounded (E : nat) (sets : list (list entry)) : Prop :=
  Forall (fun vs => (length vs <= E)%nat) sets.

Definition touches (set t : Z) (a : access) : bool :=
  (acc_set a =? set) && (acc_tag a =? t).

(** The position in [tr], counted from 1, of the last access to tag [t] of
    set [set]; 0 when there is none. *)
Fixpoint last_use (tr : list access) (set t : Z) : nat :=
  match tr with
  | [] => O
  | a :: tr' =>
      match last_use tr' set t with
      | O => if touches set t a then 1%nat else O
      | S k => S (S k)
      end
  end.

Fixpoint count_lines (p : line -> bool) (cs : list line) : nat :=
  match cs with
  | [] => O
  | l :: cs' => if p l then S (count_lines p cs') else count_lines p cs'
  end.

Definition invalid (l : line) : bool := negb (valid l).

(** The order of a set as the specification words it: the invalid lines at
    positions [0, k), the valid lines at [k, E). *)
Definition invalid_prefix_order (cs : list line) : bool :=
  let k := count_lines invalid cs in
  forallb invalid (take k cs) && forallb valid (drop k cs).

(** The order of a set as the program keeps it: the valid lines at
    positions [0, n), the invalid lines at [n, E). *)
Definition valid_prefix_order (cs : list line) : bool :=
  let n := count_lines valid cs in
  forallb valid (take n cs) && forallb invalid (drop n cs).

(** The valid lines of a set of history [tr] are ordered by the time of
    their last use, all of them used at some time. *)
Definition before (tr : list access) (set : Z) (e1 e2 : entry) : Prop :=
  (last_use tr set e1.1 < last_use tr set e2.1)%nat.

Definition recency_ordered (tr : list access) (set : Z) (vs : list entry)
    : Prop :=
  StronglySorted (before tr set) vs /\
  Forall (fun e => (0 < last_use tr set e.1)%nat) vs.

(** A tag is among the valid lines [vs] of a set of [E] lines, or the set is
    full of lines used after the tag was last used. *)
Definition held_or_older (E : nat) (tr : list access) (set : Z)
    (vs : list entry) (t : Z) : Prop :=
  t ∈ map fst vs \/
  (length vs = E /\
   Forall (fun e => (last_use tr set t < last_use tr set e.1)%nat) vs).

(** The same order read off the lines of a set: a valid line was used, and
    of two valid lines the one at the lower position was used less
    recently. *)
Definition lru_ordered (tr : list access) (set : Z) (cs : list line) : Prop :=
  (forall p l, cs !! p = Some l -> valid l = true ->
     (0 < last_use tr set (tag l))%nat) /\
  (forall p q lp lq,
     cs !! p = Some lp -> cs !! q = Some lq ->
     valid lp = true -> valid lq = true -> (p < q)%nat ->
     (last_use tr set (tag lp) < last_use tr set (tag lq))%nat).

(** The invariant the program keeps for the set [set] of an array reached
    by the accesses [tr]. *)
Definition set_invariant (E : Z) (tr : list access) (set : Z)
    (cache : list line) : Prop :=
  let cs := cache_set_of cache set E in
  length cs = Z.to_nat E /\
  valid_prefix_order cs = true /\
  lru_ordered tr set cs.

(** The sweep of [main] had it inspected the valid field as well. *)
Definition count_valid_dirty_bytes (cache : list line) (B : Z)
    (stats : csim_stats) : csim_stats :=
  fold_left
    (fun st l =>
       if valid l && dirty l then add_dirty_bytes (wrap B) st else st)
    cache stats.

(** [n] loads of the same tag of the same set, one after the other. *)
Definition repeat_load (E B : Z) (t set : Z) (n : nat)
    (c : list line * csim_stats) : list line * csim_stats :=
  run_accesses E B c (replicate n (Access Load t set)).

(** Whether some valid line of the set holds tag [t]. *)
Definition resident (cs : list line) (t : Z) : bool :=
  existsb (fun l => valid l && (tag l =? t)) cs.

(** * Properties *)

(** ** Tactics *)

(** Moves the line at the cursor into the prefix, so that an induction
    hypothesis stated at [pre ++ [y]] applies. *)
Ltac advance_prefix pre y :=
  replace (S (length pre)) with (length (pre ++ [y]))
    by (rewrite length_app; simpl; lia);
  rewrite (cons_middle y pre), app_assoc.

(** Lengths of the lists built from [map], [++] and [replicate]. *)
Ltac len :=
  rewrite ?length_map, ?length_app, ?length_replicate, ?length_map;
  simpl; lia.

(** Decides [in_range] on an explicit trace. *)
Ltac solve_in_range :=
  unfold in_range;
  repeat (apply List.Forall_cons; [simpl; lia|]); apply List.Forall_nil.

(** ** The loops of [simulate] on a set in recency order *)

Lemma lookup_total_at (pre : list line) (x : line) (rest : list line) :
  (pre ++ x :: rest) !!! length pre = x.
Proof. by apply list_lookup_total_middle. Qed.

Lemma lookup_total_next (pre : list line) (x y : line) (rest : list line) :
  (pre ++ x :: y :: rest) !!! S (length pre) = y.
Proof.
  rewrite (cons_middle x pre), app_assoc.
  apply list_lookup_total_middle. rewrite length_app. simpl. lia.
Qed.

Lemma alter_at (f : line -> line) (pre : list line) (x : line)
    (rest : list line) :
  alter f (length pre) (pre ++ x :: rest) = pre ++ f x :: rest.
Proof.
  replace (length pre) with (length pre + 0)%nat by lia.
  by rewrite alter_app_r.
Qed.

Lemma copy_next_valid (x y : line) :
  valid x = valid y -> set_dirty (dirty y) (set_tag (tag y) x) = y.
Proof. destruct x, y; simpl; intros ->; reflexivity. Qed.

Lemma default_last_cons (x y : line) (vs : list line) :
  default x (last (y :: vs)) = default y (last vs).
Proof.
  destruct vs as [|z vs]; [done|]. rewrite last_cons_cons.
  by destruct (last (z :: vs)) eqn:Hl; [|apply last_None in Hl].
Qed.

Lemma scan_repr (t : Z) (vs : list entry) (m : nat) (pre : list line) :
  scan t (pre ++ map line_of vs ++ replicate m empty_line)
       (length vs + m) (length pre) =
  match find_tag t vs with
  | Some i => ScanHit (length pre + i)
  | None =>
      match m with
      | O => ScanFull
      | S _ => ScanInvalid (length pre + length vs)
      end
  end.
Proof.
  revert pre. induction vs as [|e vs IH]; intros pre; simpl.
  - destruct m as [|m]; simpl; [done|].
    rewrite lookup_total_at. simpl. by rewrite Nat.add_0_r.
  - rewrite lookup_total_at. simpl.
    destruct (e.1 =? t); [by rewrite Nat.add_0_r|].
    advance_prefix pre (line_of e). rewrite IH, length_app. simpl.
    destruct (find_tag t vs) as [i|]; simpl.
    + f_equal. lia.
    + destruct m; [done|]. f_equal. lia.
Qed.

(** The shifting loop of the hit path stops at the last valid line: the
    lines after the hit line move down by one, and the last position keeps
    what it held. *)
Lemma hit_shift_spec (vs others pre : list line) (x : line) :
  valid x = true ->
  Forall (fun l => valid l = true) vs ->
  (forall o os, others = o :: os -> valid o = false) ->
  hit_shift (pre ++ x :: vs ++ others) (length (vs ++ others)) (length pre) =
  ((length pre + length vs)%nat,
   pre ++ vs ++ default x (last vs) :: others).
Proof.
  revert pre x. induction vs as [|y vs IH]; intros pre x Hx Hvs Hoth; simpl.
  - rewrite Nat.add_0_r. destruct others as [|o os]; simpl; [done|].
    rewrite lookup_total_next, (Hoth o os eq_refl). done.
  - apply Forall_cons in Hvs as [Hy Hvs].
    rewrite lookup_total_next, Hy, alter_at, copy_next_valid by congruence.
    advance_prefix pre y. rewrite (IH _ y Hy Hvs Hoth), length_app. simpl.
    f_equal; [lia|]. rewrite <- app_assoc. simpl.
    by rewrite (default_last_cons x y vs).
Qed.

(** The shifting loop of the eviction path on a set of valid lines. *)
Lemma evict_shift_spec (vs pre : list line) (x : line) :
  valid x = true ->
  Forall (fun l => valid l = true) vs ->
  evict_shift (pre ++ x :: vs) (length vs) (length pre) =
  ((length pre + length vs)%nat, pre ++ vs ++ [default x (last vs)]).
Proof.
  revert pre x. induction vs as [|y vs IH]; intros pre x Hx Hvs; simpl.
  - by rewrite Nat.add_0_r.
  - apply Forall_cons in Hvs as [Hy Hvs].
    rewrite lookup_total_next, alter_at, copy_next_valid by congruence.
    advance_prefix pre y. rewrite (IH _ y Hy Hvs), length_app. simpl.
    f_equal; [lia|]. rewrite <- app_assoc. simpl.
    by rewrite (default_last_cons x y vs).
Qed.

(** The same facts with the counters of the program left as they are. *)
Lemma alter_at_eq (f : line -> line) (j : nat) (pre : list line) (x : line)
    (rest : list line) :
  j = length pre -> alter f j (pre ++ x :: rest) = pre ++ f x :: rest.
Proof. intros ->. apply alter_at. Qed.

Lemma lookup_total_at_eq (j : nat) (pre : list line) (x : line)
    (rest : list line) :
  j = length pre -> (pre ++ x :: rest) !!! j = x.
Proof. intros ->. apply lookup_total_at. Qed.

Lemma hit_shift_eq (n j : nat) (vs others pre : list line) (x : line) :
  n = (length vs + length others)%nat ->
  j = length pre ->
  valid x = true ->
  Forall (fun l => valid l = true) vs ->
  (forall o os, others = o :: os -> valid o = false) ->
  hit_shift (pre ++ x :: vs ++ others) n j =
  ((length pre + length vs)%nat,
   pre ++ vs ++ default x (last vs) :: others).
Proof.
  intros -> ->. rewrite <- length_app. apply hit_shift_spec.
Qed.

Lemma evict_shift_eq (n : nat) (vs : list line) (x : line) :
  n = length vs ->
  valid x = true ->
  Forall (fun l => valid l = true) vs ->
  evict_shift (x :: vs) n 0 = (length vs, vs ++ [default x (last vs)]).
Proof. intros ->. apply (evict_shift_spec vs []). Qed.

(** ** One access on a set in recency order *)

Lemma find_tag_Some (t : Z) (vs : list entry) (i : nat) :
  find_tag t vs = Some i ->
  exists v1 d v2,
    vs = v1 ++ (t, d) :: v2 /\ length v1 = i /\
    Forall (fun e => e.1 <> t) v1.
Proof.
  revert i. induction vs as [|[t' d'] vs IH]; intros i; simpl; [done|].
  destruct (Z.eqb_spec t' t) as [->|Hne].
  - intros [= <-]. by exists [], d', vs.
  - destruct (find_tag t vs) as [k|]; simpl; [|done].
    intros [= <-]. destruct (IH k eq_refl) as (v1 & d & v2 & -> & <- & Hv1).
    exists ((t', d') :: v1), d, v2. split_and!; [done..|].
    by constructor.
Qed.

Lemma find_tag_None (t : Z) (vs : list entry) :
  find_tag t vs = None <-> Forall (fun e => e.1 <> t) vs.
Proof.
  induction vs as [|[t' d'] vs IH]; simpl; [by split|].
  destruct (Z.eqb_spec t' t) as [->|Hne].
  - split; [done|]. intros H. by apply Forall_cons in H as [? _].
  - destruct (find_tag t vs) as [k|]; simpl.
    + split; [done|]. intros H. apply Forall_cons in H as [_ H].
      by apply IH in H.
    + split; [|done]. intros _. constructor; [done|]. by apply IH.
Qed.

Lemma find_tag_app (t : Z) (v l : list entry) :
  Forall (fun e => e.1 <> t) v ->
  find_tag t (v ++ l) = (fun i => (length v + i)%nat) <$> find_tag t l.
Proof.
  induction 1 as [|e v He _ IH]; simpl.
  - by destruct (find_tag t l).
  - destruct (Z.eqb_spec e.1 t); [done|]. rewrite IH.
    by destruct (find_tag t l).
Qed.

Lemma line_of_valid (vs : list entry) :
  Forall (fun l => valid l = true) (map line_of vs).
Proof. induction vs; by constructor. Qed.

Lemma last_line_of (e : entry) (vs : list entry) :
  default (line_of e) (last (map line_of vs)) = line_of (default e (last vs)).
Proof.
  induction vs as [|x vs IH] using rev_ind; [done|].
  rewrite map_app. simpl. by rewrite !last_snoc.
Qed.

Lemma replicate_head_invalid (m : nat) (o : line) (os : list line) :
  replicate m empty_line = o :: os -> valid o = false.
Proof. destruct m; simpl; [done|]. by intros [= <- _]. Qed.

Lemma last_dirty_middle (v1 v2 : list entry) (e : entry) :
  last_dirty (v1 ++ e :: v2) = (default e (last v2)).2.
Proof.
  unfold last_dirty. rewrite last_app_cons.
  destruct v2 as [|z v2]; [done|]. rewrite last_cons_cons.
  destruct (last (z :: v2)) eqn:Hl; [done|]. by apply last_None in Hl.
Qed.

Lemma length_repr (E : nat) (vs : list entry) :
  (length vs <= E)%nat -> length (repr E vs) = E.
Proof. intros H. unfold repr. len. Qed.

Lemma repr_snoc (n : nat) (vs : list entry) (e : entry) :
  repr n (vs ++ [e]) =
  map line_of vs ++ line_of e :: replicate (n - S (length vs)) empty_line.
Proof.
  unfold repr. rewrite map_app, <- app_assoc, length_app. simpl.
  by rewrite Nat.add_1_r.
Qed.

(** [simulate_set] on a set in recency order is [lru_step] on its valid
    lines. *)
Lemma simulate_set_repr (E B t : Z) (vs : list entry) (stats : csim_stats)
    (op : operation) :
  1 <= E ->
  (length vs <= Z.to_nat E)%nat ->
  simulate_set (repr (Z.to_nat E) vs) t E B stats op =
  (repr (Z.to_nat E) (lru_step (Z.to_nat E) vs t op),
   lru_stats (Z.to_nat E) B vs t stats).
Proof.
  intros HE Hlen. unfold simulate_set, lru_step, lru_stats.
  set (n := Z.to_nat E) in *.
  assert (Hn1 : Z.to_nat (E - 1) = (n - 1)%nat) by lia.
  assert (Hscan := scan_repr t vs (n - length vs) []).
  simpl in Hscan.
  replace (length vs + (n - length vs))%nat with n in Hscan by lia.
  unfold repr at 1. rewrite Hscan, Hn1. clear Hscan.
  destruct (find_tag t vs) as [i|] eqn:Hfind.
  - apply find_tag_Some in Hfind as (v1 & d & v2 & -> & <- & _).
    rewrite length_app in Hlen. simpl in Hlen.
    rewrite last_dirty_middle, delete_middle, repr_snoc.
    unfold repr. rewrite !map_app, <- !app_assoc. simpl.
    rewrite (hit_shift_eq _ _ (map line_of v2) _ (map line_of v1)
               (line_of (t, d))); [|len|len|done|apply line_of_valid
                                   |apply replicate_head_invalid].
    rewrite last_line_of.
    replace (n - S (length (v1 ++ v2)))%nat
      with (n - length (v1 ++ (t, d) :: v2))%nat by len.
    rewrite !app_assoc. rewrite alter_at_eq by len.
    destruct op; simpl; [done|]. by rewrite alter_at_eq by len.
  - assert (Hm : (length vs < n \/ length vs = n)%nat) by lia.
    destruct Hm as [Hm|Hm].
    + destruct (n - length vs)%nat as [|m] eqn:Hsub; [lia|].
      apply Nat.ltb_lt in Hm as Hltb. rewrite Hltb, repr_snoc.
      unfold repr. rewrite Hsub. simpl.
      replace (n - S (length vs))%nat with m by lia.
      destruct op; simpl; by rewrite !alter_at_eq by len.
    + assert (Hltb : (length vs <? n)%nat = false)
        by (apply Nat.ltb_ge; lia).
      rewrite Hltb, repr_snoc. unfold repr.
      rewrite Hm, Nat.sub_diag, app_nil_r.
      destruct vs as [|e vs]; simpl in *; [lia|].
      rewrite (evict_shift_eq _ (map line_of vs) (line_of e));
        [|len|done|apply line_of_valid].
      rewrite last_line_of.
      replace (n - S (length vs))%nat with O by lia.
      destruct op; simpl; by rewrite !alter_at_eq by len.
Qed.

Lemma lru_step_length (E : nat) (vs : list entry) (t : Z) (op : operation) :
  (1 <= E)%nat -> (length vs <= E)%nat ->
  (length (lru_step E vs t op) <= E)%nat.
Proof.
  intros HE Hlen. unfold lru_step.
  destruct (find_tag t vs) as [i|] eqn:Hfind.
  - apply find_tag_Some in Hfind as (v1 & d & v2 & -> & <- & _).
    rewrite delete_middle. revert Hlen. rewrite !length_app. simpl. lia.
  - destruct (Nat.ltb_spec (length vs) E).
    + rewrite length_app. simpl. lia.
    + destruct vs; simpl in *; [lia|]. rewrite length_app. simpl. lia.
Qed.

Lemma lru_step_last (E : nat) (vs : list entry) (t : Z) (op : operation) :
  exists v d, lru_step E vs t op = v ++ [(t, d)].
Proof.
  unfold lru_step. destruct (find_tag t vs); [by eexists _, _|].
  destruct (length vs <? E)%nat; by eexists _, _.
Qed.

(** A load of the tag of the last valid line of a set changes nothing. *)
Lemma lru_step_load_mru (E : nat) (v : list entry) (t : Z) (d : bool) :
  NoDup (map fst (v ++ [(t, d)])) ->
  find_tag t (v ++ [(t, d)]) = Some (length v) /\
  lru_step E (v ++ [(t, d)]) t Load = v ++ [(t, d)].
Proof.
  intros Hnd. rewrite map_app in Hnd. apply NoDup_app in Hnd as (_ & Hv & _).
  assert (Hne : Forall (fun e => e.1 <> t) v).
  { apply Forall_forall. intros e He Heq. apply (Hv t).
    - rewrite <- Heq. apply list_elem_of_fmap. by exists e.
    - simpl. by constructor. }
  assert (Hfind : find_tag t (v ++ [(t, d)]) = Some (length v)).
  { rewrite find_tag_app by done. simpl. rewrite Z.eqb_refl. simpl.
    f_equal. lia. }
  split; [done|]. unfold lru_step. rewrite Hfind, delete_middle, app_nil_r.
  unfold last_dirty. by rewrite last_snoc.
Qed.

(** ** Runs on sets *)

Lemma abs_step_length (E : nat) (sets : list (list entry)) (a : access) :
  length (abs_step E sets a) = length sets.
Proof. apply length_alter. Qed.

Lemma abs_step_bounded (E : nat) (sets : list (list entry)) (a : access) :
  (1 <= E)%nat -> bounded E sets -> bounded E (abs_step E sets a).
Proof.
  intros HE Hb. unfold abs_step, bounded.
  apply Forall_alter; [done|]. intros vs _ Hvs.
  by apply lru_step_length.
Qed.

Lemma abs_run_length (E : nat) (tr : list access) (sets : list (list entry)) :
  length (abs_run E sets tr) = length sets.
Proof.
  revert sets. induction tr as [|a tr IH]; intros sets; [done|].
  change (abs_run E sets (a :: tr)) with (abs_run E (abs_step E sets a) tr).
  by rewrite IH, abs_step_length.
Qed.

Lemma abs_run_bounded (E : nat) (tr : list access)
    (sets : list (list entry)) :
  (1 <= E)%nat -> bounded E sets -> bounded E (abs_run E sets tr).
Proof.
  intros HE. revert sets. induction tr as [|a tr IH]; intros sets Hb; [done|].
  change (abs_run E sets (a :: tr)) with (abs_run E (abs_step E sets a) tr).
  apply IH. by apply abs_step_bounded.
Qed.

Lemma abs_run_snoc (E : nat) (tr : list access) (a : access)
    (sets : list (list entry)) :
  abs_run E sets (tr ++ [a]) = abs_step E (abs_run E sets tr) a.
Proof. unfold abs_run. by rewrite fold_left_app. Qed.

Lemma run_accesses_snoc (E B : Z) (tr : list access) (a : access)
    (c : list line * csim_stats) :
  run_accesses E B c (tr ++ [a]) = step E B (run_accesses E B c tr) a.
Proof. unfold run_accesses. by rewrite fold_left_app. Qed.

(** ** Recency *)

Lemma last_use_snoc (tr : list access) (a : access) (set t : Z) :
  last_use (tr ++ [a]) set t =
  if touches set t a then S (length tr) else last_use tr set t.
Proof.
  induction tr as [|x tr IH]; simpl.
  - by destruct (touches set t a).
  - rewrite IH. destruct (touches set t a); [done|].
    by destruct (last_use tr set t).
Qed.

Lemma last_use_le (tr : list access) (set t : Z) :
  (last_use tr set t <= length tr)%nat.
Proof.
  induction tr as [|x tr IH]; simpl; [done|].
  destruct (last_use tr set t); [|lia]. destruct (touches set t x); lia.
Qed.

Lemma touches_other_set (set t : Z) (a : access) :
  acc_set a <> set -> touches set t a = false.
Proof.
  intros H. unfold touches. by destruct (Z.eqb_spec (acc_set a) set).
Qed.

Lemma touches_other_tag (set t : Z) (a : access) :
  acc_tag a <> t -> touches set t a = false.
Proof.
  intros H. unfold touches. destruct (Z.eqb_spec (acc_tag a) t); [done|].
  apply andb_false_r.
Qed.

Lemma touches_same (a : access) : touches (acc_set a) (acc_tag a) a = true.
Proof. unfold touches. by rewrite !Z.eqb_refl. Qed.

Lemma StronglySorted_change {A} (R R' : relation A) (l : list A) :
  (forall x y, x ∈ l -> y ∈ l -> R x y -> R' x y) ->
  StronglySorted R l -> StronglySorted R' l.
Proof.
  intros HR Hl. induction Hl as [|x l Hl IH Hx]; constructor.
  - apply IH. intros y z Hy Hz. apply HR; by constructor.
  - rewrite Forall_forall in *. intros y Hy.
    apply HR; [by constructor|by constructor|by apply Hx].
Qed.

Lemma StronglySorted_lookup {A} (R : relation A) (l : list A) (p q : nat)
    (x y : A) :
  StronglySorted R l -> l !! p = Some x -> l !! q = Some y -> (p < q)%nat ->
  R x y.
Proof.
  intros Hl. revert p q. induction Hl as [|z l Hl IH Hz]; intros p q; [done|].
  destruct p as [|p], q as [|q]; simpl; try lia.
  - intros [= <-] Hy _. rewrite Forall_forall in Hz. apply Hz.
    by eapply list_elem_of_lookup_2.
  - intros Hx Hy Hpq. apply (IH p q); [done..|lia].
Qed.

(** Lines the new access does not touch keep their order. *)
Lemma recency_keep (tr : list access) (a : access) (set : Z)
    (vs : list entry) :
  Forall (fun e => touches set e.1 a = false) vs ->
  recency_ordered tr set vs -> recency_ordered (tr ++ [a]) set vs.
Proof.
  intros Hun [Hs Hp]. rewrite Forall_forall in Hun. split.
  - apply (StronglySorted_change (before tr set)); [|done].
    intros x y Hx Hy. unfold before.
    by rewrite !last_use_snoc, (Hun x Hx), (Hun y Hy).
  - rewrite Forall_forall in *. intros e He.
    rewrite last_use_snoc, (Hun e He). by apply Hp.
Qed.

(** The line of the new access comes last. *)
Lemma recency_snoc (tr : list access) (a : access) (set : Z)
    (vs : list entry) (e : entry) :
  Forall (fun e => touches set e.1 a = false) vs ->
  touches set e.1 a = true ->
  recency_ordered (tr ++ [a]) set vs ->
  recency_ordered (tr ++ [a]) set (vs ++ [e]).
Proof.
  intros Hun He [Hs Hp]. rewrite Forall_forall in Hun. split.
  - apply StronglySorted_app_2; [|done|by repeat constructor].
    intros x y Hx Hy. apply list_elem_of_singleton in Hy as ->.
    unfold before. rewrite !last_use_snoc, (Hun x Hx), He.
    pose proof (last_use_le tr set x.1). lia.
  - apply Forall_app. split; [done|]. constructor; [|done].
    rewrite last_use_snoc, He. lia.
Qed.

Lemma recency_remove (tr : list access) (set : Z) (v1 v2 : list entry)
    (e : entry) :
  recency_ordered tr set (v1 ++ e :: v2) -> recency_ordered tr set (v1 ++ v2).
Proof.
  intros [Hs Hp]. split.
  - apply StronglySorted_app in Hs as (H12 & H1 & H2).
    apply StronglySorted_cons in H2 as [_ H2].
    apply StronglySorted_app_2; [|done..].
    intros x y Hx Hy. apply H12; [done|]. by constructor.
  - apply Forall_app in Hp as [Hp1 Hp2]. apply Forall_cons in Hp2 as [_ Hp2].
    by apply Forall_app.
Qed.

Lemma recency_distinct (tr : list access) (set : Z) (v1 v2 : list entry)
    (e : entry) :
  recency_ordered tr set (v1 ++ e :: v2) ->
  Forall (fun x => x.1 <> e.1) (v1 ++ v2).
Proof.
  intros [Hs _]. apply StronglySorted_app in Hs as (H12 & H1 & H2).
  apply StronglySorted_cons in H2 as [He2 _].
  apply Forall_app. split; apply Forall_forall; intros x Hx Heq.
  - assert (Hb : before tr set x e) by (apply H12; [done|by constructor]).
    unfold before in Hb. rewrite Heq in Hb. lia.
  - rewrite Forall_forall in He2. specialize (He2 x Hx).
    unfold before in He2. rewrite Heq in He2. lia.
Qed.

Lemma recency_NoDup (tr : list access) (set : Z) (vs : list entry) :
  recency_ordered tr set vs -> NoDup (map fst vs).
Proof.
  intros [Hs _]. induction Hs as [|e vs Hs IH He]; simpl; constructor;
    [|done].
  intros Hin. apply list_elem_of_fmap in Hin as (x & Heq & Hx).
  rewrite Forall_forall in He. specialize (He x Hx).
  unfold before in He. rewrite Heq in He. lia.
Qed.

(** One access keeps the addressed set in recency order. *)
Lemma lru_step_recency (E : nat) (tr : list access) (a : access)
    (vs : list entry) :
  recency_ordered tr (acc_set a) vs ->
  recency_ordered (tr ++ [a]) (acc_set a)
                  (lru_step E vs (acc_tag a) (acc_op a)).
Proof.
  intros Hvs. unfold lru_step.
  assert (Hun : forall l : list entry,
             Forall (fun x => x.1 <> acc_tag a) l ->
             Forall (fun e => touches (acc_set a) e.1 a = false) l).
  { intros l Hl. eapply Forall_impl; [done|]. intros x Hx.
    apply touches_other_tag. congruence. }
  destruct (find_tag (acc_tag a) vs) as [i|] eqn:Hfind.
  - apply find_tag_Some in Hfind as (v1 & d & v2 & -> & <- & _).
    rewrite delete_middle.
    pose proof (recency_distinct _ _ _ _ _ Hvs) as Hd. simpl in Hd.
    apply recency_snoc; [by apply Hun|apply touches_same|].
    apply recency_keep; [by apply Hun|]. by eapply recency_remove.
  - apply find_tag_None in Hfind.
    destruct (length vs <? E)%nat.
    + apply recency_snoc; [by apply Hun|apply touches_same|].
      apply recency_keep; [by apply Hun|done].
    + destruct vs as [|e vs]; simpl.
      * apply (recency_snoc _ _ _ []); [done|apply touches_same|].
        by apply recency_keep.
      * apply Forall_cons in Hfind as [_ Hfind].
        apply recency_snoc; [by apply Hun|apply touches_same|].
        apply recency_keep; [by apply Hun|].
        by apply (recency_remove _ _ [] vs e).
Qed.

(** Every set of a reachable state is in recency order. *)
Lemma abs_run_recency (E : nat) (S_ : Z) (tr : list access) (set : Z) :
  in_range S_ tr -> 0 <= set < S_ ->
  recency_ordered tr set
    (abs_run E (replicate (Z.to_nat S_) []) tr !!! Z.to_nat set).
Proof.
  intros Htr Hset. induction tr as [|a tr IH] using rev_ind.
  - simpl. rewrite lookup_total_replicate_2 by lia. by split; constructor.
  - apply Forall_app in Htr as [Htr Ha]. apply Forall_cons in Ha as [Ha _].
    specialize (IH Htr). rewrite abs_run_snoc. unfold abs_step.
    destruct (decide (acc_set a = set)) as [<-|Hne].
    + rewrite list_lookup_total_alter_eq
        by (rewrite abs_run_length, length_replicate; lia).
      by apply lru_step_recency.
    + rewrite list_lookup_total_alter_ne by lia.
      apply recency_keep; [|done].
      apply Forall_forall. intros e _. by apply touches_other_set.
Qed.

(** ** The lines of a set in recency order *)

Lemma count_lines_app (p : line -> bool) (l k : list line) :
  count_lines p (l ++ k) = (count_lines p l + count_lines p k)%nat.
Proof. induction l as [|x l IH]; simpl; [done|]. destruct (p x); lia. Qed.

Lemma count_lines_le (p : line -> bool) (cache : list line) :
  (count_lines p cache <= length cache)%nat.
Proof. induction cache as [|l cache IH]; simpl; [done|]. destruct (p l); lia. Qed.

Lemma count_valid_lines (vs : list entry) :
  count_lines valid (map line_of vs) = length vs.
Proof. induction vs as [|e vs IH]; simpl; [done|]. by rewrite IH. Qed.

Lemma count_valid_empty (m : nat) :
  count_lines valid (replicate m empty_line) = O.
Proof. induction m; simpl; done. Qed.

Lemma count_valid_repr (E : nat) (vs : list entry) :
  count_lines valid (repr E vs) = length vs.
Proof.
  unfold repr.
  by rewrite count_lines_app, count_valid_lines, count_valid_empty,
    Nat.add_0_r.
Qed.

Lemma valid_prefix_repr (E : nat) (vs : list entry) :
  valid_prefix_order (repr E vs) = true.
Proof.
  unfold valid_prefix_order, repr.
  rewrite count_lines_app, count_valid_lines, count_valid_empty, Nat.add_0_r.
  rewrite take_app_length', drop_app_length' by len.
  apply andb_true_intro. split; apply forallb_forall.
  - intros l Hl. apply in_map_iff in Hl as (e & <- & _). done.
  - intros l Hl. apply list_elem_of_In, elem_of_replicate in Hl as [-> _].
    done.
Qed.

Lemma repr_lookup_valid (E : nat) (vs : list entry) (p : nat) (l : line) :
  repr E vs !! p = Some l -> valid l = true ->
  exists e, vs !! p = Some e /\ l = line_of e.
Proof.
  unfold repr. intros Hl Hv.
  apply lookup_app_Some in Hl as [Hl|[_ Hl]].
  - rewrite list_lookup_fmap in Hl.
    destruct (vs !! p) as [e|]; simpl in Hl; [|done].
    exists e. split; congruence.
  - apply lookup_replicate in Hl as [-> _]. done.
Qed.

Lemma lru_ordered_repr (E : nat) (tr : list access) (set : Z)
    (vs : list entry) :
  recency_ordered tr set vs -> lru_ordered tr set (repr E vs).
Proof.
  intros [Hs Hp]. split.
  - intros p l Hl Hv.
    destruct (repr_lookup_valid _ _ _ _ Hl Hv) as (e & He & ->). simpl.
    rewrite Forall_forall in Hp. apply Hp. by eapply list_elem_of_lookup_2.
  - intros p q lp lq Hlp Hlq Hvp Hvq Hpq.
    destruct (repr_lookup_valid _ _ _ _ Hlp Hvp) as (ep & Hep & ->).
    destruct (repr_lookup_valid _ _ _ _ Hlq Hvq) as (eq & Heq & ->).
    simpl. by apply (StronglySorted_lookup _ _ _ _ _ _ Hs Hep Heq).
Qed.

Lemma repr_last_dirty (E : nat) (vs : list entry) :
  vs <> [] -> dirty (repr E vs !!! (length vs - 1)%nat) = last_dirty vs.
Proof.
  destruct vs as [|x w _] using rev_ind; [done|]. intros _.
  rewrite repr_snoc, lookup_total_at_eq by len.
  unfold last_dirty. by rewrite last_snoc.
Qed.

Lemma resident_repr (E : nat) (vs : list entry) (t : Z) :
  resident (repr E vs) t =
  match find_tag t vs with Some _ => true | None => false end.
Proof.
  unfold resident, repr. rewrite existsb_app.
  assert (Hr : existsb (fun l => valid l && (tag l =? t))
                 (replicate (E - length vs) empty_line) = false).
  { induction (E - length vs)%nat; simpl; done. }
  rewrite Hr, orb_false_r. clear Hr.
  induction vs as [|e vs IH]; simpl; [done|].
  destruct (e.1 =? t); simpl; [done|]. rewrite IH.
  by destruct (find_tag t vs).
Qed.

(** ** Counters *)

Lemma wrap_small (z : Z) : 0 <= z < 2 ^ 64 -> wrap z = z.
Proof. intros H. unfold wrap. by apply Z.mod_small. Qed.

Lemma simulate_set_counts (cs : list line) (t E B : Z) (stats : csim_stats)
    (op : operation) :
  let stats' := (simulate_set cs t E B stats op).2 in
  dirty_bytes stats' = dirty_bytes stats /\
  ((hits stats' = wrap (hits stats + 1) /\ misses stats' = misses stats) \/
   (hits stats' = hits stats /\ misses stats' = wrap (misses stats + 1))).
Proof.
  unfold simulate_set. destruct (scan t cs (Z.to_nat E) 0) as [i|j|].
  - destruct (hit_shift cs (Z.to_nat (E - 1) - i) i). simpl. by split; [|left].
  - simpl. by split; [|right].
  - destruct (evict_shift cs (Z.to_nat (E - 1)) 0).
    destruct (dirty (cs !!! 0%nat)); simpl; by split; [|right].
Qed.

Lemma simulate_counts (cache : list line) (t set E B : Z)
    (stats : csim_stats) (op : operation) :
  let stats' := (simulate cache t set E B stats op).2 in
  dirty_bytes stats' = dirty_bytes stats /\
  ((hits stats' = wrap (hits stats + 1) /\ misses stats' = misses stats) \/
   (hits stats' = hits stats /\ misses stats' = wrap (misses stats + 1))).
Proof.
  unfold simulate.
  pose proof (simulate_set_counts (cache_set_of cache set E) t E B stats op)
    as H.
  by destruct (simulate_set (cache_set_of cache set E) t E B stats op).
Qed.

Lemma run_counts (E B : Z) (cache : list line) (tr : list access) :
  Z.of_nat (length tr) < 2 ^ 64 ->
  let stats := (run_accesses E B (cache, init_stats) tr).2 in
  0 <= hits stats /\ 0 <= misses stats /\
  hits stats + misses stats = Z.of_nat (length tr).
Proof.
  induction tr as [|a tr IH] using rev_ind; intros Hlen; simpl; [done|].
  rewrite length_app in Hlen. simpl in Hlen.
  rewrite run_accesses_snoc, length_app. simpl.
  destruct IH as (Hh & Hm & Hsum); [lia|].
  destruct (run_accesses E B (cache, init_stats) tr) as [c st].
  unfold step. simpl in *.
  destruct (simulate_counts c (acc_tag a) (acc_set a) E B st (acc_op a))
    as [_ [[-> ->]|[-> ->]]]; rewrite wrap_small by lia; lia.
Qed.

Lemma run_dirty_bytes (E B : Z) (c : list line * csim_stats)
    (tr : list access) :
  dirty_bytes (run_accesses E B c tr).2 = dirty_bytes c.2.
Proof.
  induction tr as [|a tr IH] using rev_ind; [done|].
  rewrite run_accesses_snoc. unfold step.
  destruct (simulate_counts (run_accesses E B c tr).1 (acc_tag a) (acc_set a)
              E B (run_accesses E B c tr).2 (acc_op a)) as [-> _].
  done.
Qed.

(** ** Dirty lines *)

Lemma sweep_valid_dirty (cache : list line) (B : Z) (stats : csim_stats) :
  Forall (fun l => dirty l = true -> valid l = true) cache ->
  count_dirty_bytes cache B stats = count_valid_dirty_bytes cache B stats.
Proof.
  intros H. revert stats. unfold count_dirty_bytes, count_valid_dirty_bytes.
  induction H as [|l cache Hl _ IH]; intros stats; simpl; [done|].
  rewrite IH. destruct (dirty l) eqn:Hd; [by rewrite Hl|].
  by rewrite andb_false_r.
Qed.

Lemma count_valid_dirty (cache : list line) :
  Forall (fun l => dirty l = true -> valid l = true) cache ->
  count_lines dirty cache = count_lines (fun l => valid l && dirty l) cache.
Proof.
  induction 1 as [|l cache Hl _ IH]; simpl; [done|].
  rewrite IH. destruct (dirty l) eqn:Hd; [by rewrite Hl|].
  by rewrite andb_false_r.
Qed.

(** The sweep adds [B] once for every dirty line. *)
Lemma sweep_dirty_bytes (cache : list line) (B : Z) (stats : csim_stats) :
  0 <= dirty_bytes stats < 2 ^ 64 ->
  dirty_bytes (count_dirty_bytes cache B stats) =
  wrap (dirty_bytes stats + B * Z.of_nat (count_lines dirty cache)).
Proof.
  revert stats. unfold count_dirty_bytes.
  induction cache as [|l cache IH]; intros stats Hdb; simpl.
  - rewrite Z.mul_0_r, Z.add_0_r. by rewrite wrap_small.
  - destruct (dirty l); [|by apply IH].
    rewrite IH by (simpl; apply Z.mod_pos_bound; lia).
    simpl. unfold wrap. rewrite Zplus_mod_idemp_l.
    replace (dirty_bytes stats + B mod 2 ^ 64 +
             B * Z.of_nat (count_lines dirty cache))
      with (B mod 2 ^ 64 +
            (dirty_bytes stats + B * Z.of_nat (count_lines dirty cache)))
      by lia.
    rewrite Zplus_mod_idemp_l. f_equal. lia.
Qed.

(** ** Address decomposition *)

Lemma shift_formula (s b addr : Z) :
  0 < s -> 0 <= b -> s + b <= 64 ->
  Z.shiftr (wrap (Z.shiftl addr (MAXBITS - s - b))) (MAXBITS - s) =
  Z.shiftr addr b mod 2 ^ s.
Proof.
  intros Hs Hb Hsb. unfold wrap, MAXBITS.
  rewrite Z.shiftl_mul_pow2, !Z.shiftr_div_pow2 by lia.
  set (k := 64 - s - b).
  assert (Hk : 0 <= k) by (unfold k; lia).
  replace (2 ^ 64) with (2 ^ (s + b) * 2 ^ k)
    by (rewrite <- Z.pow_add_r by lia; f_equal; unfold k; lia).
  replace (2 ^ (64 - s)) with (2 ^ b * 2 ^ k)
    by (rewrite <- Z.pow_add_r by lia; f_equal; unfold k; lia).
  assert (H2k : 0 < 2 ^ k) by (apply Z.pow_pos_nonneg; lia).
  assert (H2b : 0 < 2 ^ b) by (apply Z.pow_pos_nonneg; lia).
  assert (H2s : 0 < 2 ^ s) by (apply Z.pow_pos_nonneg; lia).
  rewrite Z.mul_mod_distr_r by lia.
  rewrite Z.div_mul_cancel_r by lia.
  rewrite (Z.add_comm s b), Z.pow_add_r by lia.
  rewrite Z.rem_mul_r by lia.
  rewrite (Z.mul_comm (2 ^ b)), Z.div_add by lia.
  rewrite (Z.div_small (addr mod 2 ^ b)); [lia|].
  apply Z.mod_pos_bound. lia.
Qed.

Lemma set_index_range (s b addr : Z) :
  0 <= s <= 64 -> 0 <= set_index s b addr < 2 ^ s.
Proof.
  intros Hs. unfold set_index. destruct (Z.eqb_spec s 0) as [->|Hne];
    [done|].
  unfold MAXBITS, wrap. rewrite Z.shiftr_div_pow2 by lia.
  assert (0 < 2 ^ (64 - s)) by (apply Z.pow_pos_nonneg; lia).
  pose proof (Z.mod_pos_bound (Z.shiftl addr (64 - s - b)) (2 ^ 64) eq_refl).
  split; [apply Z.div_pos; lia|].
  apply Z.div_lt_upper_bound; [lia|].
  rewrite <- Z.pow_add_r by lia. replace (64 - s + s) with 64 by lia. lia.
Qed.

(** ** The array of a geometry *)

Lemma length_flatten (E : nat) (sets : list (list entry)) :
  bounded E sets -> length (flatten E sets) = (length sets * E)%nat.
Proof.
  unfold flatten. induction 1 as [|vs sets Hvs _ IH]; simpl; [done|].
  by rewrite length_app, IH, length_repr.
Qed.

Lemma flatten_app (E : nat) (s1 s2 : list (list entry)) :
  flatten E (s1 ++ s2) = flatten E s1 ++ flatten E s2.
Proof. unfold flatten. by rewrite map_app, concat_app. Qed.

Lemma flatten_cons (E : nat) (vs : list entry) (sets : list (list entry)) :
  flatten E (vs :: sets) = repr E vs ++ flatten E sets.
Proof. done. Qed.

Lemma flatten_dirty_valid (E : nat) (sets : list (list entry)) :
  Forall (fun l => dirty l = true -> valid l = true) (flatten E sets).
Proof.
  unfold flatten. apply Forall_concat, Forall_fmap, Forall_forall.
  intros vs _. unfold repr. apply Forall_app. split.
  - apply Forall_fmap, Forall_forall. by intros e _ _.
  - by apply Forall_replicate.
Qed.

Lemma alter_lookup_total_id {A} `{!Inhabited A} (f : A -> A) (l : list A)
    (i : nat) :
  f (l !!! i) = l !!! i -> alter f i l = l.
Proof.
  revert i. induction l as [|x l IH]; intros [|i]; simpl; try done.
  - by intros ->.
  - intros H. f_equal. by apply IH.
Qed.

Section geometry.

(** A cache of [S_] sets of [E] lines, with blocks of [B] bytes, whose
    array of [S_ * E] lines is indexed without wrap-around. *)
Variables E B S_ : Z.
Hypothesis E_pos : 1 <= E.
Hypothesis array_fits : S_ * E < 2 ^ 64.

Local Abbreviation reached := (reached E S_).

Lemma init_cache_flatten :
  init_cache (S_ * E) = flatten (Z.to_nat E) (replicate (Z.to_nat S_) []).
Proof.
  unfold init_cache. destruct (Z.le_gt_cases 0 S_) as [HS|HS].
  - rewrite Z2Nat.inj_mul by lia.
    induction (Z.to_nat S_) as [|k IH]; simpl; [done|].
    rewrite replicate_add, IH, flatten_cons. f_equal.
    unfold repr. simpl. by rewrite Nat.sub_0_r.
  - replace (Z.to_nat (S_ * E)) with O by nia.
    by replace (Z.to_nat S_) with O by lia.
Qed.

Lemma set_offset_nat (set : Z) :
  0 <= set < S_ -> set_offset set E = (Z.to_nat set * Z.to_nat E)%nat.
Proof.
  intros Hset. unfold set_offset, wrap.
  assert (set * E < 2 ^ 64) by nia.
  assert (E < 2 ^ 64) by nia.
  rewrite (Z.mod_small E), (Z.mod_small (set * E)) by nia. lia.
Qed.

Lemma reached_length (tr : list access) :
  length (reached tr) = Z.to_nat S_.
Proof. unfold reached. by rewrite abs_run_length, length_replicate. Qed.

Lemma reached_bounded (tr : list access) : bounded (Z.to_nat E) (reached tr).
Proof.
  apply abs_run_bounded; [lia|]. apply Forall_replicate. simpl. lia.
Qed.

(** The window of a set in the array of [sets]. *)
Lemma cache_set_of_flatten (set : Z) (sets : list (list entry)) :
  0 <= set < S_ ->
  length sets = Z.to_nat S_ ->
  bounded (Z.to_nat E) sets ->
  cache_set_of (flatten (Z.to_nat E) sets) set E =
  repr (Z.to_nat E) (sets !!! Z.to_nat set).
Proof.
  intros Hset Hlen Hb. unfold cache_set_of.
  rewrite set_offset_nat by done.
  assert (Hi : (Z.to_nat set < length sets)%nat) by lia.
  apply lookup_lt_is_Some in Hi as [vs Hvs].
  rewrite (list_lookup_total_correct _ _ _ Hvs).
  apply list_elem_of_split_length in Hvs as (s1 & s2 & -> & Hs1).
  rewrite Hs1. unfold bounded in Hb.
  apply Forall_app in Hb as [Hb1 Hb2]. apply Forall_cons in Hb2 as [Hvs Hb2].
  rewrite flatten_app, flatten_cons.
  rewrite drop_app_length' by (by rewrite length_flatten).
  by rewrite take_app_length' by (by rewrite length_repr).
Qed.

(** [simulate] on the array touches the addressed set only, and does to it
    what [lru_step] says. *)
Lemma simulate_flatten (t set : Z) (sets : list (list entry))
    (stats : csim_stats) (op : operation) :
  0 <= set < S_ ->
  length sets = Z.to_nat S_ ->
  bounded (Z.to_nat E) sets ->
  simulate (flatten (Z.to_nat E) sets) t set E B stats op =
  (flatten (Z.to_nat E)
     (alter (fun vs => lru_step (Z.to_nat E) vs t op) (Z.to_nat set) sets),
   lru_stats (Z.to_nat E) B (sets !!! Z.to_nat set) t stats).
Proof.
  intros Hset Hlen Hb. unfold simulate.
  rewrite cache_set_of_flatten by done.
  rewrite simulate_set_repr.
  2: done.
  2:{ unfold bounded in Hb. rewrite Forall_forall in Hb. apply Hb.
      apply list_elem_of_lookup_total_2. lia. }
  rewrite set_offset_nat by done. f_equal.
  assert (Hi : (Z.to_nat set < length sets)%nat) by lia.
  apply lookup_lt_is_Some in Hi as [vs Hvs].
  rewrite (list_lookup_total_correct _ _ _ Hvs).
  apply list_elem_of_split_length in Hvs as (s1 & s2 & -> & Hs1).
  rewrite Hs1. unfold bounded in Hb.
  apply Forall_app in Hb as [Hb1 Hb2]. apply Forall_cons in Hb2 as [Hvs Hb2].
  replace (length s1 * Z.to_nat E)%nat
    with (length (flatten (Z.to_nat E) s1))
    by (by rewrite length_flatten).
  rewrite flatten_app, flatten_cons, take_app_length.
  replace (length (flatten (Z.to_nat E) s1) + Z.to_nat E)%nat
    with (length (flatten (Z.to_nat E) s1 ++ repr (Z.to_nat E) vs))
    by (rewrite length_app, length_repr; done).
  rewrite (app_assoc (flatten (Z.to_nat E) s1) (repr (Z.to_nat E) vs)
             (flatten (Z.to_nat E) s2)), drop_app_length.
  replace (length s1) with (length s1 + 0)%nat by lia.
  rewrite alter_app_r. simpl. by rewrite flatten_app, flatten_cons.
Qed.

(** A run on the array is the run of [lru_step] on the sets. *)
Lemma run_flatten (tr : list access) (sets : list (list entry))
    (stats : csim_stats) :
  in_range S_ tr ->
  length sets = Z.to_nat S_ ->
  bounded (Z.to_nat E) sets ->
  (run_accesses E B (flatten (Z.to_nat E) sets, stats) tr).1 =
  flatten (Z.to_nat E) (abs_run (Z.to_nat E) sets tr).
Proof.
  intros Htr. revert sets stats.
  induction Htr as [|a tr Ha _ IH]; intros sets stats Hlen Hb; [done|].
  change (run_accesses E B (flatten (Z.to_nat E) sets, stats) (a :: tr))
    with (run_accesses E B (step E B (flatten (Z.to_nat E) sets, stats) a) tr).
  change (abs_run (Z.to_nat E) sets (a :: tr))
    with (abs_run (Z.to_nat E) (abs_step (Z.to_nat E) sets a) tr).
  unfold step. simpl. rewrite simulate_flatten by done.
  apply (IH (abs_step (Z.to_nat E) sets a)).
  - by rewrite abs_step_length.
  - apply abs_step_bounded; [lia|done].
Qed.

(** The array of a reachable state is the array of the sets reached. *)
Lemma reachable_flatten (tr : list access) :
  in_range S_ tr ->
  (run_accesses E B (initial S_ E) tr).1 = flatten (Z.to_nat E) (reached tr).
Proof.
  intros Htr. unfold initial. rewrite init_cache_flatten.
  apply run_flatten; [done|by rewrite length_replicate|].
  apply Forall_replicate. simpl. lia.
Qed.

(** The window of a set in a reachable state. *)
Lemma reachable_set (tr : list access) (set : Z) :
  in_range S_ tr -> 0 <= set < S_ ->
  cache_set_of (run_accesses E B (initial S_ E) tr).1 set E =
  repr (Z.to_nat E) (reached tr !!! Z.to_nat set).
Proof.
  intros Htr Hset. rewrite reachable_flatten by done.
  apply cache_set_of_flatten;
    [done|apply reached_length|apply reached_bounded].
Qed.

(** Every set of a reachable state satisfies the invariant. *)
Lemma reachable_set_invariant (tr : list access) (set : Z) :
  in_range S_ tr -> 0 <= set < S_ ->
  set_invariant E tr set (run_accesses E B (initial S_ E) tr).1.
Proof.
  intros Htr Hset. unfold set_invariant. simpl.
  rewrite reachable_set by done. split_and!.
  - apply length_repr.
    pose proof (reached_bounded tr) as Hb.
    unfold bounded in Hb. rewrite Forall_forall in Hb. apply Hb.
    apply list_elem_of_lookup_total_2. rewrite reached_length. lia.
  - apply valid_prefix_repr.
  - apply lru_ordered_repr. by apply (abs_run_recency _ S_).
Qed.

(** A load of the tag the last valid line of the addressed set holds is a
    hit that leaves the array as it is. *)
Lemma step_load_mru (t set : Z) (sets : list (list entry))
    (stats : csim_stats) (v : list entry) (d : bool) :
  0 <= set < S_ ->
  length sets = Z.to_nat S_ ->
  bounded (Z.to_nat E) sets ->
  sets !!! Z.to_nat set = v ++ [(t, d)] ->
  NoDup (map fst (v ++ [(t, d)])) ->
  step E B (flatten (Z.to_nat E) sets, stats) (Access Load t set) =
  (flatten (Z.to_nat E) sets, incr_hits stats).
Proof.
  intros Hset Hlen Hb Hlast Hnd. unfold step. simpl.
  rewrite simulate_flatten by done.
  destruct (lru_step_load_mru (Z.to_nat E) v t d Hnd) as [Hfind Hstep].
  f_equal.
  - f_equal. apply alter_lookup_total_id. by rewrite Hlast.
  - unfold lru_stats. by rewrite Hlast, Hfind.
Qed.

Lemma repeat_load_mru (t set : Z) (sets : list (list entry))
    (stats : csim_stats) (v : list entry) (d : bool) (k : nat) :
  0 <= set < S_ ->
  length sets = Z.to_nat S_ ->
  bounded (Z.to_nat E) sets ->
  sets !!! Z.to_nat set = v ++ [(t, d)] ->
  NoDup (map fst (v ++ [(t, d)])) ->
  (repeat_load E B t set k (flatten (Z.to_nat E) sets, stats)).1 =
  flatten (Z.to_nat E) sets.
Proof.
  intros Hset Hlen Hb Hlast Hnd. revert stats.
  induction k as [|k IH]; intros stats; [done|].
  unfold repeat_load in *. cbn [replicate].
  change (run_accesses E B (flatten (Z.to_nat E) sets, stats)
            (Access Load t set :: replicate k (Access Load t set)))
    with (run_accesses E B
            (step E B (flatten (Z.to_nat E) sets, stats) (Access Load t set))
            (replicate k (Access Load t set))).
  rewrite (step_load_mru t set sets stats v d) by done.
  apply IH.
Qed.

(** The set an access leaves behind, in a reachable state. *)
Lemma reachable_step_set (tr : list access) (a : access) :
  in_range S_ tr -> 0 <= acc_set a < S_ ->
  reached (tr ++ [a]) !!! Z.to_nat (acc_set a) =
  lru_step (Z.to_nat E) (reached tr !!! Z.to_nat (acc_set a)) (acc_tag a)
           (acc_op a).
Proof.
  intros Htr Ha. unfold reached. rewrite abs_run_snoc. unfold abs_step.
  rewrite list_lookup_total_alter_eq; [done|].
  rewrite abs_run_length, length_replicate. lia.
Qed.

(** The counters after one access, in a reachable state. *)
Lemma reachable_step_stats (tr : list access) (a : access) :
  in_range S_ tr -> 0 <= acc_set a < S_ ->
  let c := run_accesses E B (initial S_ E) tr in
  (step E B c a).2 =
  lru_stats (Z.to_nat E) B (reached tr !!! Z.to_nat (acc_set a)) (acc_tag a)
            c.2.
Proof.
  intros Htr Ha c. unfold step. rewrite (surjective_pairing c).
  replace c.1 with (flatten (Z.to_nat E) (reached tr))
    by (symmetry; by apply reachable_flatten).
  cbn [fst snd].
  by rewrite simulate_flatten
    by (done || apply reached_length || apply reached_bounded).
Qed.

(** What a hit leaves at the most recently used position of the set, in a
    reachable state: a valid line with the tag of the access, dirty after a
    store, and after a load as dirty as the line that was at that position
    before the access. *)
Lemma hit_line_after_access (tr : list access) (op : operation)
    (t set : Z) :
  in_range S_ tr -> 0 <= set < S_ ->
  let c := run_accesses E B (initial S_ E) tr in
  let cs := cache_set_of c.1 set E in
  let cs' := cache_set_of (step E B c (Access op t set)).1 set E in
  let n := count_lines valid cs in
  resident cs t = true ->
  hits (step E B c (Access op t set)).2 = wrap (hits c.2 + 1) /\
  count_lines valid cs' = n /\ (0 < n)%nat /\
  cs' !!! (n - 1)%nat =
  Line true t (is_store op || dirty (cs !!! (n - 1)%nat)).
Proof.
  intros Htr Hset c cs cs' n.
  assert (Htr1 : in_range S_ (tr ++ [Access op t set]))
    by (apply Forall_app; split; [done|by constructor]).
  assert (Hcs : cs = repr (Z.to_nat E) (reached tr !!! Z.to_nat set))
    by (by apply reachable_set).
  assert (Hcs' : cs' = repr (Z.to_nat E)
            (lru_step (Z.to_nat E) (reached tr !!! Z.to_nat set) t op)).
  { unfold cs', c. rewrite <- run_accesses_snoc, reachable_set by done.
    apply (f_equal (repr (Z.to_nat E))).
    by apply (reachable_step_set tr (Access op t set)). }
  unfold n. rewrite Hcs, Hcs', resident_repr. intros Hres. unfold c.
  rewrite (reachable_step_stats tr (Access op t set)) by done.
  cbn [acc_set acc_tag acc_op]. unfold lru_stats, lru_step.
  rewrite !count_valid_repr.
  destruct (find_tag t (reached tr !!! Z.to_nat set)) as [i|] eqn:Hfind;
    [|done].
  apply find_tag_Some in Hfind as (v1 & d & v2 & Hvs & <- & _).
  rewrite repr_last_dirty by (rewrite Hvs; by destruct v1).
  rewrite Hvs, delete_middle. split_and!; [done|len|len|].
  by rewrite repr_snoc, lookup_total_at_eq by len.
Qed.

End geometry.


(** ** The parser and the runs of the engine *)

Lemma fgets_chars_shorter (k : nat) (file : list ascii) :
  (length (fgets_chars k file).2 <= length file)%nat.
Proof.
  revert file. induction k as [|k IH]; intros [|c file]; simpl; try lia.
  destruct (ascii_eqb c nl); simpl; [lia|].
  specialize (IH file). destruct (fgets_chars k file). simpl in *. lia.
Qed.

Lemma fgets_chars_progress (k : nat) (c : ascii) (file : list ascii) :
  (length (fgets_chars (S k) (c :: file)).2 < length (c :: file))%nat.
Proof.
  cbn [fgets_chars]. destruct (ascii_eqb c nl); simpl; [lia|].
  pose proof (fgets_chars_shorter k file) as H.
  destruct (fgets_chars k file). simpl in *. lia.
Qed.

(** A successful [fgets] consumes at least one character. *)
Lemma fgets_shorter (file linebuf file' : list ascii) :
  fgets LINELEN file = Some (linebuf, file') ->
  (length file' < length file)%nat.
Proof.
  destruct file as [|c file]; [done|]. unfold fgets.
  change (LINELEN - 1)%nat with (S 28). intros H.
  pose proof (fgets_chars_progress 28 c file) as Hp.
  destruct (fgets_chars (S 28) (c :: file)). by simplify_eq.
Qed.

Lemma process_lines_enough (fuel1 fuel2 : nat) (cache : list line)
    (s E b B : Z) (file : list ascii) (stats : csim_stats) :
  (length file <= fuel1)%nat -> (length file <= fuel2)%nat ->
  process_lines fuel1 cache s E b B file stats =
  process_lines fuel2 cache s E b B file stats.
Proof.
  revert fuel2 cache file stats.
  induction fuel1 as [|fuel1 IH]; intros [|fuel2] cache file stats H1 H2;
    try done.
  - destruct file; simpl in *; [done|lia].
  - destruct file; simpl in *; [done|lia].
  - cbn [process_lines].
    destruct (fgets LINELEN file) as [[linebuf file']|] eqn:Hf; [|done].
    apply fgets_shorter in Hf.
    destruct (parse_line s b linebuf) as [a|]; [|done].
    destruct (simulate cache (acc_tag a) (acc_set a) E B stats (acc_op a))
      as [cache' stats'].
    apply IH; lia.
Qed.

(** More iterations than the file has characters change nothing: the loop
    of [process_trace_file] always reaches the end of the file. *)
Lemma process_lines_fuel (fuel : nat) (cache : list line) (s E b B : Z)
    (file : list ascii) (stats : csim_stats) :
  (length file <= fuel)%nat ->
  process_lines fuel cache s E b B file stats =
  process_lines (length file) cache s E b B file stats.
Proof. intros H. by apply process_lines_enough. Qed.

(** [process_lines] applies the records it parses, in order. *)
Lemma process_lines_run (fuel : nat) (cache : list line) (s E b B : Z)
    (file : list ascii) (stats : csim_stats) :
  let r := process_lines fuel cache s E b B file stats in
  (r.1.2, r.2) =
  run_accesses E B (cache, stats) (applied_records fuel s b file).
Proof.
  revert cache file stats. induction fuel as [|fuel IH];
    intros cache file stats; [done|].
  cbn [process_lines applied_records].
  destruct (fgets LINELEN file) as [[linebuf file']|]; [|done].
  destruct (parse_line s b linebuf) as [a|]; [|done].
  change (run_accesses E B (cache, stats)
            (a :: applied_records fuel s b file'))
    with (run_accesses E B (step E B (cache, stats) a)
            (applied_records fuel s b file')).
  unfold step. cbn [fst snd].
  destruct (simulate cache (acc_tag a) (acc_set a) E B stats (acc_op a))
    as [cache' stats'].
  apply IH.
Qed.

Lemma parse_line_in_range (s b : Z) (linebuf : list ascii) (a : access) :
  0 <= s <= 64 -> parse_line s b linebuf = Some a ->
  0 <= acc_set a < 2 ^ s.
Proof.
  intros Hs. unfold parse_line.
  destruct (negb (mem_ascii nl (cstring linebuf))); [done|].
  destruct (strtok (cstring linebuf) _) as [[op|] save]; [|done].
  destruct (negb (str_eqb op _) && negb (str_eqb op _)); [done|].
  destruct (strtok save _) as [[addr_str|] save']; [|by destruct (strtok _ _)].
  destruct (strtok save' _) as [[size_str|] save'']; [|done].
  destruct (strtoull addr_str 16) as [addr endptr].
  destruct (negb (str_eqb endptr []) || (addr >? MAXADDR)); [done|].
  destruct (strtoull size_str 10) as [size endptr'].
  destruct (negb (str_eqb endptr' []) || (size >? MAXSIZE)); [done|].
  intros [= <-]. simpl. by apply set_index_range.
Qed.

Lemma applied_records_in_range (fuel : nat) (s b : Z) (file : list ascii) :
  0 <= s <= 64 -> in_range (2 ^ s) (applied_records fuel s b file).
Proof.
  intros Hs. revert file. induction fuel as [|fuel IH]; intros file;
    cbn [applied_records]; [constructor|].
  destruct (fgets LINELEN file) as [[linebuf file']|]; [|constructor].
  destruct (parse_line s b linebuf) as [a|] eqn:Ha; [|constructor].
  constructor; [|apply IH]. by eapply parse_line_in_range.
Qed.

(** ** The summary *)

(** The summary of a run whose [S], [B] and [S * E] are [int] values: the
    counters are those [process_trace_file] leaves, except [dirty_bytes],
    which the final sweep sets to [B] times the number of valid dirty lines
    of the final array. *)
Lemma csim_main_dirty_bytes (s E b : Z) (file : list ascii) :
  0 <= s <= 30 -> 0 <= b <= 30 -> 1 <= E -> 2 ^ s * E <= INT_MAX ->
  let r := process_trace_file (init_cache (2 ^ s * E)) s E b (2 ^ b)
             (Some file) init_stats in
  r.1.1 <> 1 ->
  dirty_bytes r.2 = 0 /\
  exists stats,
    csim_main s E b (Some file) = Summary stats /\
    dirty_bytes stats =
    2 ^ b * Z.of_nat (count_lines (fun l => valid l && dirty l) r.1.2).
Proof.
  intros Hs Hb HE HSE r Hrc.
  assert (H2s : 0 < 2 ^ s <= 2 ^ 30)
    by (split; [apply Z.pow_pos_nonneg; lia|apply Z.pow_le_mono_r; lia]).
  assert (H2b : 0 < 2 ^ b <= 2 ^ 30)
    by (split; [apply Z.pow_pos_nonneg; lia|apply Z.pow_le_mono_r; lia]).
  assert (Himax : INT_MAX = 2147483647) by reflexivity.
  assert (H230 : 2 ^ 30 = 1073741824) by reflexivity.
  pose proof (process_lines_run (length file) (init_cache (2 ^ s * E)) s E b
                (2 ^ b) file init_stats) as Hrun.
  simpl in Hrun. fold (trace_records s b file) in Hrun.
  change (process_lines (length file) (init_cache (2 ^ s * E)) s E b (2 ^ b)
            file init_stats) with r in Hrun.
  assert (Htr : in_range (2 ^ s) (trace_records s b file))
    by (apply applied_records_in_range; lia).
  assert (HSE' : 2 ^ s * E < 2 ^ 64) by lia.
  assert (Hcache : r.1.2 =
            flatten (Z.to_nat E) (reached E (2 ^ s) (trace_records s b file))).
  { rewrite <- (reachable_flatten E (2 ^ b) (2 ^ s)) by done.
    unfold initial. by rewrite <- Hrun. }
  assert (Hdb : dirty_bytes r.2 = 0).
  { pose proof (run_dirty_bytes E (2 ^ b)
                  (init_cache (2 ^ s * E), init_stats)
                  (trace_records s b file)) as H.
    by rewrite <- Hrun in H. }
  split; [done|].
  assert (Hlen : length r.1.2 = Z.to_nat (2 ^ s * E)).
  { rewrite Hcache, length_flatten, reached_length
      by (by apply reached_bounded).
    lia. }
  unfold csim_main, int_of_pow2.
  destruct (Z.gtb_spec (s + b) 64); [lia|].
  destruct (Z.ltb_spec s 0); [lia|].
  destruct (Z.leb_spec E 0); [lia|].
  destruct (Z.ltb_spec b 0); [lia|]. cbn [orb].
  destruct (Z.leb_spec (2 ^ s) INT_MAX); [|lia].
  destruct (Z.leb_spec (2 ^ b) INT_MAX); [|lia].
  destruct (Z.gtb_spec (2 ^ s * E) INT_MAX); [lia|].
  fold r. destruct r as [[rc cache] stats]. simpl in *.
  destruct (Z.eqb_spec rc 1); [done|].
  eexists. split; [done|].
  rewrite sweep_dirty_bytes, Hdb by (rewrite Hdb; lia).
  rewrite <- count_valid_dirty by (rewrite Hcache; apply flatten_dirty_valid).
  pose proof (count_lines_le dirty cache).
  rewrite wrap_small; [lia|]. nia.
Qed.

(** ** The scenarios of the specification *)

Example scenario_direct_mapped_two_sets :
  csim_main 4 1 4 (Some (trace_of_lines ["L 10,1"; "L 20,1"]%string)) =
  Summary (Stats 0 2 0 0 0).
Proof. by vm_compute. Qed.

Example scenario_store_then_load :
  csim_main 4 1 4
    (Some (trace_of_lines ["L 10,1"; "S 10,1"; "L 10,1"]%string)) =
  Summary (Stats 2 1 0 16 0).
Proof. by vm_compute. Qed.

Example scenario_lru_thrash :
  csim_main 2 2 2
    (Some (trace_of_lines ["L 0,1"; "L 10,1"; "L 20,1"; "L 0,1"]%string)) =
  Summary (Stats 0 4 2 0 0).
Proof. by vm_compute. Qed.

Example scenario_dirty_eviction :
  csim_main 2 2 2
    (Some (trace_of_lines ["S 0,1"; "S 10,1"; "S 20,1"]%string)) =
  Summary (Stats 0 3 1 8 4).
Proof. by vm_compute. Qed.

(** Lines the parser rejects: no final newline, an operation other than
    [L] and [S], an address with trailing characters, a size above
    [MAXSIZE]; and geometries the front end rejects. *)
Example scenario_rejected :
  csim_main 0 1 0 (Some (list_ascii_of_string "L 1,1")) =
  ExitFailure "Error while parsing trace file." /\
  csim_main 0 1 0 (Some (trace_of_lines ["M 1,1"%string])) =
  ExitFailure "Error while parsing trace file." /\
  csim_main 0 1 0 (Some (trace_of_lines ["L 1gg,1"%string])) =
  ExitFailure "Error while parsing trace file." /\
  csim_main 0 1 0 (Some (trace_of_lines ["L 1,2048"%string])) =
  ExitFailure "Error while parsing trace file." /\
  csim_main 0 1 0 None = ExitFailure "Error while parsing trace file." /\
  csim_main 40 1 30 (Some []) = ExitFailure "Error: s + b is too large" /\
  csim_main 0 0 0 (Some []) =
  ExitFailure "Mandatory arguments missing or zero.".
Proof. by vm_compute. Qed.

(** * The claims *)

(** C1, at a failing input.  With one set of two lines, after a store to
    tag 1 and a load of tag 2 the line of tag 1 is dirty and the line of
    tag 2, the most recently used one, is clean.  The load of tag 1 that
    follows is a hit and moves tag 1 to the most recently used position, but
    there the line takes over the dirty bit the position held: the dirty bit
    of the hit line is not preserved, and the run reports no dirty byte. *)
Theorem C1_load_hit_loses_dirty_bit :
  let c := run_accesses 2 1 (initial 1 2) [Access Store 1 0; Access Load 2 0] in
  let c' := step 2 1 c (Access Load 1 0) in
  c.1 = [Line true 1 true; Line true 2 false] /\
  hits c'.2 = hits c.2 + 1 /\ misses c'.2 = misses c.2 /\
  c'.1 = [Line true 2 false; Line true 1 false] /\
  csim_main 0 2 0 (Some (trace_of_lines ["S 1,1"; "L 2,1"; "L 1,1"]%string)) =
  Summary (Stats 1 2 0 0 0).
Proof. vm_compute. repeat split. Qed.

(** C2 as stated fails: after one access to an empty set of two lines the
    valid line is at position 0 and the invalid line at position 1. *)
Lemma C2_invalid_prefix_counterexample :
  in_range 1 [Access Load 1 0] /\
  cache_set_of (run_accesses 2 1 (initial 1 2) [Access Load 1 0]).1 0 2 =
  [Line true 1 false; Line false MAXADDR false] /\
  invalid_prefix_order
    (cache_set_of (run_accesses 2 1 (initial 1 2) [Access Load 1 0]).1 0 2) =
  false.
Proof. split; [solve_in_range|by vm_compute]. Qed.

(** C2, amended.  In every reachable state (the initial state followed by
    any sequence of accesses to sets of the cache) every set has [E] lines,
    its valid lines occupy the positions [0, n) and its invalid lines the
    positions [n, E), [n] being the number of valid lines, and the valid
    lines are in order of last use, the least recently used one at
    position 0.  Any further access leads to a state where this holds
    again. *)
Theorem C2_valid_prefix_in_lru_order (S_ E B : Z) (tr : list access)
    (set : Z) (a : access) :
  1 <= E -> S_ * E < 2 ^ 64 -> in_range S_ tr -> 0 <= set < S_ ->
  0 <= acc_set a < S_ ->
  let c := run_accesses E B (initial S_ E) tr in
  set_invariant E tr set c.1 /\
  set_invariant E (tr ++ [a]) set (step E B c a).1.
Proof.
  intros HE HSE Htr Hset Ha c. split.
  - by apply reachable_set_invariant.
  - unfold c. rewrite <- run_accesses_snoc.
    apply reachable_set_invariant; try done.
    apply Forall_app. split; [done|by constructor].
Qed.

Lemma C2_witness :
  let tr := [Access Store 1 0; Access Load 2 0] in
  let c := run_accesses 2 1 (initial 1 2) tr in
  set_invariant 2 tr 0 c.1 /\
  set_invariant 2 (tr ++ [Access Load 1 0]) 0 (step 2 1 c (Access Load 1 0)).1.
Proof.
  apply (C2_valid_prefix_in_lru_order 1 2 1
           [Access Store 1 0; Access Load 2 0] 0 (Access Load 1 0)).
  - lia.
  - reflexivity.
  - solve_in_range.
  - lia.
  - simpl. lia.
Defined.

(** C3, at a failing input.  The geometry [s = 0], [E = 1], [b = 31] passes
    the checks of [main], and the one-line trace parses.  The block size
    [2^31] is not an [int], so [B = (int)pow(2, b)] has no defined value and
    the run does not report the [2^31] dirty bytes of the claim. *)
Theorem C3_block_size_not_an_int :
  int_of_pow2 31 = None /\
  (process_trace_file (init_cache 1) 0 1 31 (2 ^ 31)
     (Some (trace_of_lines ["S 0,1"%string])) init_stats).1.1 = 0 /\
  csim_main 0 1 31 (Some (trace_of_lines ["S 0,1"%string])) = Undefined.
Proof. by vm_compute. Qed.

(** C4, at a failing input.  The size numeral 0 converts to 0, which is not
    above [MAXSIZE]: the line [L 1,0] is accepted for every geometry, and
    the run applies it and ends with a summary. *)
Theorem C4_size_zero_is_accepted :
  strtoull ["0"%char] 10 = (0, []) /\
  (forall s b : Z,
     parse_line s b (list_ascii_of_string "L 1,0" ++ [nl]) =
     Some (Access Load (tag_of s b 1) (set_index s b 1))) /\
  csim_main 0 1 0 (Some (trace_of_lines ["L 1,0"%string])) =
  Summary (Stats 0 1 0 0 0).
Proof. split_and!; [by vm_compute|done|by vm_compute]. Qed.

(** C5, at a failing input.  The numeral 10000000000000000 denotes [2^64];
    [strtoull] converts it to [ULLONG_MAX], which is not above [MAXADDR]:
    the line is accepted for every geometry, as an access to the address
    [2^64 - 1], and the run applies it. *)
Theorem C5_address_overflow_is_accepted :
  digits_value 16 (list_ascii_of_string "10000000000000000") = 2 ^ 64 /\
  strtoull (list_ascii_of_string "10000000000000000") 16 = (MAXADDR, []) /\
  (forall s b : Z,
     parse_line s b (list_ascii_of_string "L 10000000000000000,1" ++ [nl]) =
     Some (Access Load (tag_of s b MAXADDR) (set_index s b MAXADDR))) /\
  csim_main 0 1 0
    (Some (trace_of_lines ["L 10000000000000000,1"%string])) =
  Summary (Stats 0 1 0 0 0).
Proof. split_and!; [by vm_compute|by vm_compute|done|by vm_compute]. Qed.

(** C6.  For [s >= 0], [b >= 0], [s + b <= 64] and a 64-bit address, the set
    index handed to [simulate] is [(addr >> b) mod 2^s]; it is 0 when
    [s = 0], whatever [b] and the address; and for [s > 0] it is the value
    of the two shifts of the program. *)
Theorem C6_set_index (s b addr : Z) :
  0 <= s -> 0 <= b -> s + b <= 64 -> 0 <= addr < 2 ^ 64 ->
  set_index s b addr = Z.shiftr addr b mod 2 ^ s /\
  (forall b' addr', set_index 0 b' addr' = 0) /\
  (0 < s ->
   set_index s b addr =
   Z.shiftr (wrap (Z.shiftl addr (MAXBITS - s - b))) (MAXBITS - s)).
Proof.
  intros Hs Hb Hsb Haddr. split_and!.
  - unfold set_index. destruct (Z.eqb_spec s 0) as [->|Hne].
    + by rewrite Z.mod_1_r.
    + apply shift_formula; lia.
  - done.
  - intros Hpos. unfold set_index. by destruct (Z.eqb_spec s 0); [lia|].
Qed.

Lemma C6_witness :
  set_index 2 2 0x1B = Z.shiftr 0x1B 2 mod 2 ^ 2 /\
  (forall b' addr', set_index 0 b' addr' = 0) /\
  (0 < 2 ->
   set_index 2 2 0x1B =
   Z.shiftr (wrap (Z.shiftl 0x1B (MAXBITS - 2 - 2))) (MAXBITS - 2)).
Proof. apply (C6_set_index 2 2 0x1B); lia. Defined.

(** C7.  Every call of [simulate] adds one to exactly one of [hits] and
    [misses] and leaves the other as it is; and when [process_trace_file]
    returns, from zeroed statistics, [hits + misses] is the number of
    records it applied (a number that fits in the 64-bit counters). *)
Theorem C7_hits_plus_misses (cache : list line) (s E b B : Z)
    (file : list ascii) :
  Z.of_nat (length (trace_records s b file)) < 2 ^ 64 ->
  let r := process_trace_file cache s E b B (Some file) init_stats in
  hits r.2 + misses r.2 = Z.of_nat (length (trace_records s b file)) /\
  forall (cache' : list line) (t set : Z) (stats : csim_stats)
         (op : operation),
    let stats' := (simulate cache' t set E B stats op).2 in
    (hits stats' = wrap (hits stats + 1) /\ misses stats' = misses stats) \/
    (hits stats' = hits stats /\ misses stats' = wrap (misses stats + 1)).
Proof.
  intros Hlen. split.
  - pose proof (process_lines_run (length file) cache s E b B file init_stats)
      as Hrun.
    pose proof (run_counts E B cache (trace_records s b file) Hlen)
      as (_ & _ & Hsum).
    unfold process_trace_file. simpl in Hrun.
    fold (trace_records s b file) in Hrun. by rewrite <- Hrun in Hsum.
  - intros cache' t set stats op. apply simulate_counts.
Qed.

Lemma C7_witness :
  let file := trace_of_lines ["L 10,1"; "S 10,1"; "L 20,1"]%string in
  let r := process_trace_file (init_cache 16) 4 1 4 16 (Some file)
             init_stats in
  hits r.2 + misses r.2 = Z.of_nat (length (trace_records 4 4 file)) /\
  forall (cache' : list line) (t set : Z) (stats : csim_stats)
         (op : operation),
    let stats' := (simulate cache' t set 1 16 stats op).2 in
    (hits stats' = wrap (hits stats + 1) /\ misses stats' = misses stats) \/
    (hits stats' = hits stats /\ misses stats' = wrap (misses stats + 1)).
Proof.
  apply (C7_hits_plus_misses (init_cache 16) 4 1 4 16
           (trace_of_lines ["L 10,1"; "S 10,1"; "L 20,1"]%string)).
  vm_compute. reflexivity.
Defined.

(** C8.  With [s = 0], [E = 4], [b = 0] the trace S 1,1; S 2,1; L 1,1;
    S 3,1; S 4,1; S 5,1 parses into six accesses to set 0 and the run
    reports hits 1, misses 5, evictions 1, dirty_bytes 4 and
    dirty_evictions 1.  Before the last store the set is full with the dirty
    line of tag 2 at position 0, and nothing has been evicted; the last
    store evicts that line. *)
Theorem C8_fully_associative_scenario :
  let file :=
    trace_of_lines ["S 1,1"; "S 2,1"; "L 1,1"; "S 3,1"; "S 4,1"; "S 5,1"]%string
  in
  let five :=
    [Access Store 1 0; Access Store 2 0; Access Load 1 0; Access Store 3 0;
     Access Store 4 0] in
  let c5 := run_accesses 4 1 (initial 1 4) five in
  let c6 := step 4 1 c5 (Access Store 5 0) in
  csim_main 0 4 0 (Some file) = Summary (Stats 1 5 1 4 1) /\
  trace_records 0 0 file = five ++ [Access Store 5 0] /\
  c5.1 = [Line true 2 true; Line true 1 true; Line true 3 true;
          Line true 4 true] /\
  c5.2 = Stats 1 4 0 0 0 /\
  scan 5 c5.1 4 0 = ScanFull /\
  c6.1 = [Line true 1 true; Line true 3 true; Line true 4 true;
          Line true 5 true] /\
  resident c6.1 2 = false /\
  c6.2 = Stats 1 5 1 0 1.
Proof. vm_compute. repeat split. Qed.

(** C9 as stated fails: in the state one load of tag 1 leaves, a load of
    tag 1 ([N = 1]) is a hit, so the [N] loads produce no miss. *)
Lemma C9_resident_counterexample :
  let c := run_accesses 1 1 (initial 1 1) [Access Load 1 0] in
  let c' := repeat_load 1 1 1 0 1 c in
  in_range 1 [Access Load 1 0] /\
  misses c'.2 = misses c.2 /\ hits c'.2 = hits c.2 + 1.
Proof. split; [solve_in_range|by vm_compute]. Qed.

(** C9, amended.  In every reachable state, the first of a sequence of
    loads of the same tag of the same set is a hit when a valid line of the
    set holds the tag and a miss otherwise; every later load of the
    sequence is a hit, and leaves the whole array, so the addressed set, as
    it was before it. *)
Theorem C9_repeated_loads (S_ E B : Z) (tr : list access) (t set : Z) :
  1 <= E -> S_ * E < 2 ^ 64 -> in_range S_ tr -> 0 <= set < S_ ->
  let a := Access Load t set in
  let c := run_accesses E B (initial S_ E) tr in
  let c1 := step E B c a in
  (if resident (cache_set_of c.1 set E) t
   then hits c1.2 = wrap (hits c.2 + 1) /\ misses c1.2 = misses c.2
   else hits c1.2 = hits c.2 /\ misses c1.2 = wrap (misses c.2 + 1)) /\
  forall k : nat,
    let ck := repeat_load E B t set k c1 in
    let ck' := step E B ck a in
    ck'.1 = ck.1 /\
    hits ck'.2 = wrap (hits ck.2 + 1) /\ misses ck'.2 = misses ck.2.
Proof.
  intros HE HSE Htr Hset a c c1.
  assert (Htr1 : in_range S_ (tr ++ [a]))
    by (apply Forall_app; split; [done|by constructor]).
  split.
  - unfold c1, c. rewrite (reachable_step_stats E B S_) by done.
    rewrite (reachable_set E B S_), resident_repr by done.
    unfold lru_stats. cbn [acc_set acc_tag a].
    destruct (find_tag t (reached E S_ tr !!! Z.to_nat set)); [done|].
    destruct (length (reached E S_ tr !!! Z.to_nat set) <? Z.to_nat E)%nat;
      [done|].
    by destruct (dirty (repr (Z.to_nat E) (reached E S_ tr !!! Z.to_nat set)
                          !!! 0%nat)).
  - set (sets1 := reached E S_ (tr ++ [a])).
    assert (Hc1 : c1.1 = flatten (Z.to_nat E) sets1).
    { unfold c1, c. rewrite <- run_accesses_snoc.
      by apply reachable_flatten. }
    assert (Hlast : exists v d, sets1 !!! Z.to_nat set = v ++ [(t, d)]).
    { pose proof (reachable_step_set E S_ HE tr a Htr Hset) as Hs.
      cbn [acc_set acc_tag acc_op a] in Hs. unfold sets1. rewrite Hs.
      apply lru_step_last. }
    destruct Hlast as (v & d & Hlast).
    assert (Hnd : NoDup (map fst (v ++ [(t, d)]))).
    { rewrite <- Hlast. apply (recency_NoDup (tr ++ [a]) set).
      by apply (abs_run_recency _ S_). }
    assert (Hlen1 : length sets1 = Z.to_nat S_) by apply reached_length.
    assert (Hb1 : bounded (Z.to_nat E) sets1) by (by apply reached_bounded).
    intros k ck ck'.
    assert (Hck : ck.1 = flatten (Z.to_nat E) sets1).
    { unfold ck. rewrite (surjective_pairing c1), Hc1.
      by apply (repeat_load_mru E B S_ HE HSE t set sets1 _ v d). }
    unfold ck'. rewrite (surjective_pairing ck), Hck.
    by rewrite (step_load_mru E B S_ HE HSE t set sets1 _ v d).
Qed.

Lemma C9_witness :
  let a := Access Load 7 0 in
  let c := run_accesses 2 1 (initial 1 2) [Access Store 1 0] in
  let c1 := step 2 1 c a in
  (if resident (cache_set_of c.1 0 2) 7
   then hits c1.2 = wrap (hits c.2 + 1) /\ misses c1.2 = misses c.2
   else hits c1.2 = hits c.2 /\ misses c1.2 = wrap (misses c.2 + 1)) /\
  forall k : nat,
    let ck := repeat_load 2 1 7 0 k c1 in
    let ck' := step 2 1 ck a in
    ck'.1 = ck.1 /\
    hits ck'.2 = wrap (hits ck.2 + 1) /\ misses ck'.2 = misses ck.2.
Proof.
  apply (C9_repeated_loads 1 2 1 [Access Store 1 0] 7 0).
  - lia.
  - reflexivity.
  - solve_in_range.
  - lia.
Defined.

(** C10.  In every reachable state every dirty line is valid, so the number
    of dirty lines is the number of valid dirty lines, and the final sweep
    of [main], which looks at the dirty field only, gives what a sweep that
    also looked at the valid field would give. *)
Theorem C10_dirty_implies_valid (S_ E B : Z) (tr : list access) :
  1 <= E -> S_ * E < 2 ^ 64 -> in_range S_ tr ->
  let cache := (run_accesses E B (initial S_ E) tr).1 in
  Forall (fun l => dirty l = true -> valid l = true) cache /\
  Forall (fun l => valid l = false /\ dirty l = false) (initial S_ E).1 /\
  count_lines dirty cache = count_lines (fun l => valid l && dirty l) cache /\
  forall (B' : Z) (stats : csim_stats),
    count_dirty_bytes cache B' stats = count_valid_dirty_bytes cache B' stats.
Proof.
  intros HE HSE Htr cache.
  assert (Hdv : Forall (fun l => dirty l = true -> valid l = true) cache).
  { unfold cache. rewrite reachable_flatten by done.
    apply flatten_dirty_valid. }
  split_and!; [done| |by apply count_valid_dirty|].
  - by apply Forall_replicate.
  - intros B' stats. by apply sweep_valid_dirty.
Qed.

Lemma C10_witness :
  let cache :=
    (run_accesses 2 4 (initial 2 2)
       [Access Store 1 0; Access Load 2 1; Access Store 3 0; Access Load 1 0]).1
  in
  Forall (fun l => dirty l = true -> valid l = true) cache /\
  Forall (fun l => valid l = false /\ dirty l = false) (initial 2 2).1 /\
  count_lines dirty cache = count_lines (fun l => valid l && dirty l) cache /\
  forall (B' : Z) (stats : csim_stats),
    count_dirty_bytes cache B' stats = count_valid_dirty_bytes cache B' stats.
Proof.
  apply (C10_dirty_implies_valid 2 2 4
           [Access Store 1 0; Access Load 2 1; Access Store 3 0;
            Access Load 1 0]).
  - lia.
  - reflexivity.
  - solve_in_range.
Defined.

(** * Further properties of the engine *)

(** Lengths, with subtractions left for [lia]. *)
Ltac lens :=
  rewrite ?length_map, ?length_app, ?length_replicate, ?length_map;
  cbn [length]; lia.

(** The addressed set before and after one access, in a reachable state. *)
Lemma reachable_access (E B S_ : Z) (tr : list access) (a : access) :
  1 <= E -> S_ * E < 2 ^ 64 -> in_range S_ tr -> 0 <= acc_set a < S_ ->
  let c := run_accesses E B (initial S_ E) tr in
  let vs := reached E S_ tr !!! Z.to_nat (acc_set a) in
  (length vs <= Z.to_nat E)%nat /\
  recency_ordered tr (acc_set a) vs /\
  cache_set_of c.1 (acc_set a) E = repr (Z.to_nat E) vs /\
  cache_set_of (step E B c a).1 (acc_set a) E =
  repr (Z.to_nat E) (lru_step (Z.to_nat E) vs (acc_tag a) (acc_op a)) /\
  (step E B c a).2 = lru_stats (Z.to_nat E) B vs (acc_tag a) c.2.
Proof.
  intros HE HSE Htr Ha c vs.
  assert (Htr1 : in_range S_ (tr ++ [a]))
    by (apply Forall_app; split; [done|by constructor]).
  split_and!.
  - pose proof (reached_bounded E S_ HE tr) as Hb.
    unfold bounded in Hb. rewrite Forall_forall in Hb. apply Hb.
    apply list_elem_of_lookup_total_2. rewrite reached_length. lia.
  - by apply (abs_run_recency _ S_).
  - by apply reachable_set.
  - unfold c. rewrite <- run_accesses_snoc, reachable_set by done.
    by rewrite reachable_step_set.
  - by apply reachable_step_stats.
Qed.

Lemma drop_S_middle {A} (pre : list A) (x : A) (rest : list A) (n : nat) :
  n = length pre -> drop (S n) (pre ++ x :: rest) = rest.
Proof.
  intros ->. rewrite (cons_middle x pre), app_assoc.
  apply drop_app_length'. rewrite length_app. simpl. lia.
Qed.

Lemma drop_repr (E : nat) (vs : list entry) :
  drop (length vs) (repr E vs) = replicate (E - length vs) empty_line.
Proof. unfold repr. apply drop_app_length'. by rewrite length_map. Qed.

Lemma scan_set (E : nat) (t : Z) (vs : list entry) :
  (length vs <= E)%nat ->
  scan t (repr E vs) E 0 =
  match find_tag t vs with
  | Some i => ScanHit i
  | None => if (length vs <? E)%nat then ScanInvalid (length vs) else ScanFull
  end.
Proof.
  intros Hlen. pose proof (scan_repr t vs (E - length vs) []) as H.
  simpl in H. replace (length vs + (E - length vs))%nat with E in H by lia.
  unfold repr. rewrite H. destruct (find_tag t vs); [done|].
  destruct (Nat.ltb_spec (length vs) E).
  - by destruct (E - length vs)%nat eqn:Hm; [lia|].
  - by replace (E - length vs)%nat with O by lia.
Qed.

(** X1.  A hit, in a reachable state: when the scan of [simulate] stops at a
    valid line [i] holding the tag, only [hits] changes; the lines before
    [i] stay, the valid lines after [i] move down by one, and the last valid
    position gets a valid line with the tag, dirty for a store and, for a
    load, as dirty as the line that was last before the access.  The
    invalid lines stay. *)
Theorem X1_hit_reorders_set (S_ E B : Z) (tr : list access)
    (op : operation) (t set : Z) (i : nat) :
  1 <= E -> S_ * E < 2 ^ 64 -> in_range S_ tr -> 0 <= set < S_ ->
  let c := run_accesses E B (initial S_ E) tr in
  let cs := cache_set_of c.1 set E in
  let c' := step E B c (Access op t set) in
  let n := count_lines valid cs in
  scan t cs (Z.to_nat E) 0 = ScanHit i ->
  (i < n)%nat /\
  c'.2 = incr_hits c.2 /\
  cache_set_of c'.1 set E =
  take i cs ++ take (n - S i) (drop (S i) cs) ++
  Line true t (is_store op || dirty (cs !!! (n - 1)%nat)) :: drop n cs.
Proof.
  intros HE HSE Htr Hset c cs c' n.
  destruct (reachable_access E B S_ tr (Access op t set) HE HSE Htr Hset)
    as (Hlen & _ & Hcs & Hcs' & Hst).
  cbn [acc_set acc_tag acc_op] in *. fold c in Hcs, Hcs', Hst. fold c' in Hcs', Hst.
  fold cs in Hcs. unfold n. rewrite Hcs', Hst, Hcs. clear Hcs Hcs' Hst.
  rewrite scan_set, count_valid_repr by done.
  unfold lru_stats, lru_step.
  destruct (find_tag t (reached E S_ tr !!! Z.to_nat set)) as [k|] eqn:Hfind;
    [|by destruct (_ <? _)%nat].
  intros [= ->].
  apply find_tag_Some in Hfind as (v1 & d & v2 & Hvs & <- & _).
  rewrite repr_last_dirty by (rewrite Hvs; by destruct v1).
  rewrite Hvs, delete_middle, repr_snoc. split_and!; [lens|done|].
  rewrite drop_repr.
  unfold repr. rewrite !map_app, <- !app_assoc. cbn [map app].
  rewrite take_app_length' by lens.
  rewrite drop_S_middle by lens.
  rewrite take_app_length' by lens.
  do 4 f_equal. lens.
Qed.

Lemma X1_witness :
  let c := run_accesses 2 1 (initial 1 2) [Access Store 1 0; Access Load 2 0] in
  let cs := cache_set_of c.1 0 2 in
  let c' := step 2 1 c (Access Load 1 0) in
  let n := count_lines valid cs in
  (0 < n)%nat /\
  c'.2 = incr_hits c.2 /\
  cache_set_of c'.1 0 2 =
  take 0 cs ++ take (n - 1) (drop 1 cs) ++
  Line true 1 (is_store Load || dirty (cs !!! (n - 1)%nat)) :: drop n cs.
Proof.
  apply (X1_hit_reorders_set 1 2 1 [Access Store 1 0; Access Load 2 0]
           Load 1 0 0).
  - lia.
  - reflexivity.
  - solve_in_range.
  - lia.
  - vm_compute. reflexivity.
Defined.

(** X2.  A cold miss, in a reachable state: when the scan of [simulate]
    stops at an invalid line [j], that line is the first after the valid
    ones, only [misses] changes, and the set changes at position [j] only,
    which becomes a valid line with the tag, dirty exactly for a store. *)
Theorem X2_cold_miss_fills_first_invalid (S_ E B : Z) (tr : list access)
    (op : operation) (t set : Z) (j : nat) :
  1 <= E -> S_ * E < 2 ^ 64 -> in_range S_ tr -> 0 <= set < S_ ->
  let c := run_accesses E B (initial S_ E) tr in
  let cs := cache_set_of c.1 set E in
  let c' := step E B c (Access op t set) in
  scan t cs (Z.to_nat E) 0 = ScanInvalid j ->
  j = count_lines valid cs /\ (j < Z.to_nat E)%nat /\
  resident cs t = false /\
  c'.2 = incr_misses c.2 /\
  cache_set_of c'.1 set E = <[j := Line true t (is_store op)]> cs.
Proof.
  intros HE HSE Htr Hset c cs c'.
  destruct (reachable_access E B S_ tr (Access op t set) HE HSE Htr Hset)
    as (Hlen & _ & Hcs & Hcs' & Hst).
  cbn [acc_set acc_tag acc_op] in *.
  fold c in Hcs, Hcs', Hst. fold c' in Hcs', Hst. fold cs in Hcs.
  rewrite Hcs', Hst, Hcs. clear Hcs Hcs' Hst.
  rewrite scan_set, count_valid_repr, resident_repr by done.
  unfold lru_stats, lru_step.
  destruct (find_tag t (reached E S_ tr !!! Z.to_nat set)); [done|].
  destruct (Nat.ltb_spec (length (reached E S_ tr !!! Z.to_nat set))
              (Z.to_nat E)) as [Hlt|Hge]; [|done].
  intros [= <-]. split_and!; [done..|].
  rewrite repr_snoc. unfold repr.
  destruct (Z.to_nat E - length (reached E S_ tr !!! Z.to_nat set))%nat
    as [|m] eqn:Hm; [lia|].
  replace (Z.to_nat E - S (length (reached E S_ tr !!! Z.to_nat set)))%nat
    with m by lia.
  cbn [replicate].
  replace (length (reached E S_ tr !!! Z.to_nat set))
    with (length (map line_of (reached E S_ tr !!! Z.to_nat set)) + 0)%nat
    by lens.
  by rewrite insert_app_r.
Qed.

Lemma X2_witness :
  let c := run_accesses 2 1 (initial 1 2) [Access Store 1 0] in
  let cs := cache_set_of c.1 0 2 in
  let c' := step 2 1 c (Access Load 2 0) in
  1%nat = count_lines valid cs /\ (1 < Z.to_nat 2)%nat /\
  resident cs 2 = false /\
  c'.2 = incr_misses c.2 /\
  cache_set_of c'.1 0 2 = <[1%nat := Line true 2 (is_store Load)]> cs.
Proof.
  apply (X2_cold_miss_fills_first_invalid 1 2 1 [Access Store 1 0]
           Load 2 0 1).
  - lia.
  - reflexivity.
  - solve_in_range.
  - lia.
  - vm_compute. reflexivity.
Defined.

(** X3.  A capacity miss, in a reachable state: when the scan of [simulate]
    finds every line valid and none with the tag, [misses] and [evictions]
    grow by one, [dirty_evictions] grows by [B] exactly when the line at
    position 0 is dirty, that line leaves the set, the other lines move
    down by one, and the last position gets a valid line with the tag,
    dirty exactly for a store. *)
Theorem X3_capacity_miss_evicts_position_0 (S_ E B : Z) (tr : list access)
    (op : operation) (t set : Z) :
  1 <= E -> S_ * E < 2 ^ 64 -> in_range S_ tr -> 0 <= set < S_ ->
  let c := run_accesses E B (initial S_ E) tr in
  let cs := cache_set_of c.1 set E in
  let c' := step E B c (Access op t set) in
  scan t cs (Z.to_nat E) 0 = ScanFull ->
  count_lines valid cs = Z.to_nat E /\
  resident cs t = false /\
  c'.2 =
  (let stats := incr_evictions (incr_misses c.2) in
   if dirty (cs !!! 0%nat) then add_dirty_evictions (wrap B) stats
   else stats) /\
  cache_set_of c'.1 set E = drop 1 cs ++ [Line true t (is_store op)].
Proof.
  intros HE HSE Htr Hset c cs c'.
  destruct (reachable_access E B S_ tr (Access op t set) HE HSE Htr Hset)
    as (Hlen & _ & Hcs & Hcs' & Hst).
  cbn [acc_set acc_tag acc_op] in *.
  fold c in Hcs, Hcs', Hst. fold c' in Hcs', Hst. fold cs in Hcs.
  rewrite Hcs', Hst, Hcs. clear Hcs Hcs' Hst.
  rewrite scan_set, count_valid_repr, resident_repr by done.
  unfold lru_stats, lru_step.
  destruct (find_tag t (reached E S_ tr !!! Z.to_nat set)); [done|].
  destruct (Nat.ltb_spec (length (reached E S_ tr !!! Z.to_nat set))
              (Z.to_nat E)) as [Hlt|Hge]; [done|].
  intros _. split_and!; [lia|done|done|].
  destruct (reached E S_ tr !!! Z.to_nat set) as [|e vs]; cbn [length] in *;
    [lia|].
  rewrite repr_snoc. unfold repr. cbn [map app drop tail length].
  replace (Z.to_nat E - S (length vs))%nat with O by lia.
  cbn [replicate]. by rewrite app_nil_r.
Qed.

Lemma X3_witness :
  let c := run_accesses 2 4 (initial 1 2) [Access Store 1 0; Access Load 2 0] in
  let cs := cache_set_of c.1 0 2 in
  let c' := step 2 4 c (Access Load 3 0) in
  count_lines valid cs = Z.to_nat 2 /\
  resident cs 3 = false /\
  c'.2 =
  (let stats := incr_evictions (incr_misses c.2) in
   if dirty (cs !!! 0%nat) then add_dirty_evictions (wrap 4) stats
   else stats) /\
  cache_set_of c'.1 0 2 = drop 1 cs ++ [Line true 3 (is_store Load)].
Proof.
  apply (X3_capacity_miss_evicts_position_0 1 2 4
           [Access Store 1 0; Access Load 2 0] Load 3 0).
  - lia.
  - reflexivity.
  - solve_in_range.
  - lia.
  - vm_compute. reflexivity.
Defined.







(** ** What the cache holds *)

Lemma lru_step_held_or_older (E : nat) (tr : list access) (a : access)
    (vs : list entry) (t : Z) :
  (1 <= E)%nat -> (length vs <= E)%nat ->
  recency_ordered tr (acc_set a) vs ->
  ((0 < last_use tr (acc_set a) t)%nat ->
   held_or_older E tr (acc_set a) vs t) ->
  (0 < last_use (tr ++ [a]) (acc_set a) t)%nat ->
  held_or_older E (tr ++ [a]) (acc_set a)
    (lru_step E vs (acc_tag a) (acc_op a)) t.
Proof.
  intros HE Hlen Hrec IH Hused. unfold held_or_older.
  destruct (decide (t = acc_tag a)) as [->|Hne].
  { left. destruct (lru_step_last E vs (acc_tag a) (acc_op a))
      as (v & d & ->).
    rewrite map_app. apply elem_of_app. right. simpl. by constructor. }
  assert (Hsame : last_use (tr ++ [a]) (acc_set a) t
                  = last_use tr (acc_set a) t)
    by (by rewrite last_use_snoc, touches_other_tag).
  rewrite Hsame in Hused. specialize (IH Hused).
  assert (Hold : forall l : list entry,
             Forall (fun x => x.1 <> acc_tag a) l ->
             Forall (fun e => (last_use tr (acc_set a) t
                               < last_use tr (acc_set a) e.1)%nat) l ->
             Forall (fun e => (last_use (tr ++ [a]) (acc_set a) t
                               < last_use (tr ++ [a]) (acc_set a) e.1)%nat)
                    l).
  { intros l Hl1 Hl2. rewrite Forall_forall in *. intros e He.
    rewrite Hsame, last_use_snoc, touches_other_tag
      by (intros Heq; by apply (Hl1 e)).
    by apply Hl2. }
  assert (Hlast : forall d : bool,
             (last_use (tr ++ [a]) (acc_set a) t
              < last_use (tr ++ [a]) (acc_set a) (acc_tag a, d).1)%nat).
  { intros d. rewrite Hsame. simpl. rewrite last_use_snoc, touches_same.
    pose proof (last_use_le tr (acc_set a) t). lia. }
  unfold lru_step.
  destruct (find_tag (acc_tag a) vs) as [i|] eqn:Hfind.
  - apply find_tag_Some in Hfind as (v1 & d & v2 & -> & <- & _).
    pose proof (recency_distinct _ _ _ _ _ Hrec) as Hd. simpl in Hd.
    rewrite delete_middle. unfold held_or_older in IH.
    destruct IH as [Hin|[HlenE Hall]].
    + left. rewrite !map_app in *. simpl in Hin.
      rewrite !elem_of_app in *. rewrite elem_of_cons in Hin.
      destruct Hin as [Hin|[Hin|Hin]]; [by left; left|done|by left; right].
    + right. split; [revert HlenE; rewrite !length_app; simpl; lia|].
      apply Forall_app. split; [|by constructor].
      apply Hold; [done|].
      apply Forall_app in Hall as [H1 H2].
      apply Forall_cons in H2 as [_ H2]. by apply Forall_app.
  - apply find_tag_None in Hfind. unfold held_or_older in IH.
    destruct (Nat.ltb_spec (length vs) E) as [Hlt|Hge].
    + destruct IH as [Hin|[HlenE _]]; [|lia].
      left. rewrite map_app. apply elem_of_app. by left.
    + destruct vs as [|e vs]; [simpl in *; lia|].
      apply Forall_cons in Hfind as [_ Hfind]. cbn [tail].
      destruct Hrec as [Hs _]. apply StronglySorted_cons in Hs as [He _].
      destruct IH as [Hin|[HlenE Hall]].
      * simpl in Hin. apply elem_of_cons in Hin as [->|Hin].
        -- right. split; [rewrite length_app; simpl in *; lia|].
           apply Forall_app. split; [|by constructor].
           by apply Hold.
        -- left. rewrite map_app. apply elem_of_app. by left.
      * right. split; [rewrite length_app; simpl in *; lia|].
        apply Forall_app. split; [|by constructor].
        apply Forall_cons in Hall as [_ Hall]. by apply Hold.
Qed.

Lemma abs_run_held_or_older (E : nat) (S_ : Z) (tr : list access)
    (set t : Z) :
  (1 <= E)%nat -> in_range S_ tr -> 0 <= set < S_ ->
  (0 < last_use tr set t)%nat ->
  held_or_older E tr set
    (abs_run E (replicate (Z.to_nat S_) []) tr !!! Z.to_nat set) t.
Proof.
  intros HE Htr Hset. induction tr as [|a tr IH] using rev_ind.
  - simpl. lia.
  - apply Forall_app in Htr as [Htr Ha]. apply Forall_cons in Ha as [Ha _].
    specialize (IH Htr). rewrite abs_run_snoc. unfold abs_step.
    destruct (decide (acc_set a = set)) as [<-|Hne].
    + rewrite list_lookup_total_alter_eq
        by (rewrite abs_run_length, length_replicate; lia).
      apply lru_step_held_or_older; [done| |by apply (abs_run_recency _ S_)
                                     |done].
      assert (Hb : bounded E (abs_run E (replicate (Z.to_nat S_) []) tr)).
      { apply abs_run_bounded; [done|]. apply Forall_replicate. simpl. lia. }
      unfold bounded in Hb. rewrite Forall_forall in Hb. apply Hb.
      apply list_elem_of_lookup_total_2.
      rewrite abs_run_length, length_replicate. lia.
    + rewrite list_lookup_total_alter_ne by lia.
      rewrite last_use_snoc, touches_other_set by done. intros Hused.
      destruct (IH Hused) as [Hin|[Hlen Hall]]; [by left|right].
      split; [done|]. eapply Forall_impl; [done|]. intros e He. simpl in *.
      by rewrite !last_use_snoc, !touches_other_set.
Qed.

Lemma repr_full (E : nat) (vs : list entry) :
  length vs = E -> repr E vs = map line_of vs.
Proof.
  intros <-. unfold repr. by rewrite Nat.sub_diag, app_nil_r.
Qed.

(** X5.  Least-recently-used replacement, in a reachable state: a tag of a
    set that was accessed before and is not held by a valid line of the set
    is missing only because the set is full of lines that were all used
    after the last access to that tag. *)
Theorem X5_absent_block_is_older (S_ E B : Z) (tr : list access)
    (set t : Z) :
  1 <= E -> S_ * E < 2 ^ 64 -> in_range S_ tr -> 0 <= set < S_ ->
  let cs := cache_set_of (run_accesses E B (initial S_ E) tr).1 set E in
  (0 < last_use tr set t)%nat -> resident cs t = false ->
  count_lines valid cs = Z.to_nat E /\
  Forall (fun l => valid l = true /\
                   (last_use tr set t < last_use tr set (tag l))%nat) cs.
Proof.
  intros HE HSE Htr Hset cs Hused. unfold cs.
  rewrite reachable_set, resident_repr, count_valid_repr by done.
  destruct (find_tag t (reached E S_ tr !!! Z.to_nat set)) eqn:Hfind;
    [done|]. intros _.
  apply find_tag_None in Hfind.
  destruct (abs_run_held_or_older (Z.to_nat E) S_ tr set t) as [Hin|[Hl Ho]];
    [lia|done..| |].
  - apply list_elem_of_fmap in Hin as (e & -> & He).
    rewrite Forall_forall in Hfind. by destruct (Hfind e He).
  - fold (reached E S_ tr) in Hl, Ho. split; [done|].
    rewrite repr_full by done. apply Forall_fmap.
    eapply Forall_impl; [done|]. by intros e He.
Qed.

Lemma X5_witness :
  let tr := [Access Load 1 0; Access Load 2 0] in
  let cs := cache_set_of (run_accesses 1 1 (initial 1 1) tr).1 0 1 in
  count_lines valid cs = Z.to_nat 1 /\
  Forall (fun l => valid l = true /\
                   (last_use tr 0 1 < last_use tr 0 (tag l))%nat) cs.
Proof.
  apply (X5_absent_block_is_older 1 1 1 [Access Load 1 0; Access Load 2 0]
           0 1).
  - lia.
  - reflexivity.
  - solve_in_range.
  - lia.
  - simpl. lia.
  - reflexivity.
Defined.

Lemma filter_valid_repr (E : nat) (vs : list entry) :
  List.filter valid (repr E vs) = map line_of vs.
Proof.
  unfold repr. rewrite List.filter_app.
  assert (H1 : List.filter valid (map line_of vs) = map line_of vs).
  { induction vs as [|e vs IH]; simpl; [done|]. by rewrite IH. }
  assert (H2 : forall m, List.filter valid (replicate m empty_line) = []).
  { induction m; simpl; done. }
  by rewrite H1, H2, app_nil_r.
Qed.

(** X6.  In a reachable state no two valid lines of a set hold the same
    tag. *)
Theorem X6_valid_tags_are_distinct (S_ E B : Z) (tr : list access)
    (set : Z) :
  1 <= E -> S_ * E < 2 ^ 64 -> in_range S_ tr -> 0 <= set < S_ ->
  let cs := cache_set_of (run_accesses E B (initial S_ E) tr).1 set E in
  NoDup (map tag (List.filter valid cs)).
Proof.
  intros HE HSE Htr Hset cs. unfold cs.
  rewrite reachable_set, filter_valid_repr, map_map by done. simpl.
  apply (recency_NoDup tr set). by apply (abs_run_recency _ S_).
Qed.

Lemma X6_witness :
  let tr := [Access Load 1 0; Access Store 2 0; Access Load 1 0] in
  let cs := cache_set_of (run_accesses 2 1 (initial 1 2) tr).1 0 2 in
  NoDup (map tag (List.filter valid cs)).
Proof.
  apply (X6_valid_tags_are_distinct 1 2 1
           [Access Load 1 0; Access Store 2 0; Access Load 1 0] 0).
  - lia.
  - reflexivity.
  - solve_in_range.
  - lia.
Defined.

(** ** Counters of a run *)

(** The four ways a call of [simulate] changes the statistics. *)
Lemma simulate_stats_cases (cache : list line) (t set E B : Z)
    (stats : csim_stats) (op : operation) :
  let stats' := (simulate cache t set E B stats op).2 in
  stats' = incr_hits stats \/
  stats' = incr_misses stats \/
  stats' = incr_evictions (incr_misses stats) \/
  stats' = add_dirty_evictions (wrap B) (incr_evictions (incr_misses stats)).
Proof.
  unfold simulate, simulate_set.
  destruct (scan t (cache_set_of cache set E) (Z.to_nat E) 0) as [i|j|].
  - destruct (hit_shift _ _ _). simpl. by left.
  - simpl. by right; left.
  - destruct (evict_shift _ _ _).
    destruct (dirty (cache_set_of cache set E !!! 0%nat)); simpl.
    + by right; right; right.
    + by right; right; left.
Qed.

(** X7.  For a run from zeroed statistics whose counters do not wrap
    around: there are at most as many evictions as misses and as many
    misses as accesses, and [dirty_evictions] is [B] times a number of
    evictions. *)
Theorem X7_evictions_and_dirty_evictions (E B : Z) (cache : list line)
    (tr : list access) :
  0 <= B -> (B + 1) * Z.of_nat (length tr) < 2 ^ 64 ->
  let stats := (run_accesses E B (cache, init_stats) tr).2 in
  0 <= evictions stats <= misses stats /\
  misses stats <= Z.of_nat (length tr) /\
  exists k, 0 <= k <= evictions stats /\ dirty_evictions stats = B * k.
Proof.
  intros HB. induction tr as [|a tr IH] using rev_ind; intros Hlen; simpl.
  - split_and!; [done..|]. exists 0. by rewrite Z.mul_0_r.
  - rewrite length_app in *. cbn [length] in *.
    rewrite run_accesses_snoc.
    destruct IH as (Hev & Hm & k & Hk & Hde); [nia|].
    destruct (run_accesses E B (cache, init_stats) tr) as [c st].
    unfold step. cbn [fst snd] in *.
    assert (Hw : forall z, 0 <= z <= Z.of_nat (length tr) + 1 -> wrap z = z)
      by (intros z Hz; apply wrap_small; nia).
    assert (HwB : wrap B = B) by (apply wrap_small; nia).
    assert (Hwk : wrap (B * k + B) = B * (k + 1))
      by (rewrite wrap_small by nia; lia).
    destruct (simulate_stats_cases c (acc_tag a) (acc_set a) E B st
                (acc_op a)) as [-> | [-> | [-> | ->]]]; simpl.
    + split_and!; [lia..|]. by exists k.
    + rewrite Hw by lia. split_and!; [lia..|]. by exists k.
    + rewrite !Hw by lia. split_and!; [lia..|]. exists k. split; [lia|done].
    + rewrite !Hw by lia. rewrite HwB, Hde, Hwk.
      split_and!; [lia..|]. exists (k + 1). split; [lia|done].
Qed.

Lemma X7_witness :
  let stats :=
    (run_accesses 1 16 (init_cache 1, init_stats)
       [Access Store 1 0; Access Load 2 0; Access Load 3 0]).2 in
  0 <= evictions stats <= misses stats /\
  misses stats <= Z.of_nat 3 /\
  exists k, 0 <= k <= evictions stats /\ dirty_evictions stats = 16 * k.
Proof.
  apply (X7_evictions_and_dirty_evictions 1 16 (init_cache 1)
           [Access Store 1 0; Access Load 2 0; Access Load 3 0]).
  - lia.
  - reflexivity.
Defined.

(** ** A store followed by a load *)

Lemma lru_step_store_last (E : nat) (vs : list entry) (t : Z) :
  exists v, lru_step E vs t Store = v ++ [(t, true)].
Proof.
  unfold lru_step. destruct (find_tag t vs); [by eexists|].
  destruct (length vs <? E)%nat; by eexists.
Qed.

(** X8.  In a reachable state a store, hit or miss, leaves a valid dirty
    line with its tag at the last valid position of its set; a load of the
    same tag of the same set that follows is a hit that changes nothing in
    the array, so the line stays dirty. *)
Theorem X8_store_then_load (S_ E B : Z) (tr : list access) (t set : Z) :
  1 <= E -> S_ * E < 2 ^ 64 -> in_range S_ tr -> 0 <= set < S_ ->
  let c := run_accesses E B (initial S_ E) tr in
  let c1 := step E B c (Access Store t set) in
  let c2 := step E B c1 (Access Load t set) in
  let cs1 := cache_set_of c1.1 set E in
  let n1 := count_lines valid cs1 in
  (0 < n1)%nat /\
  cs1 !!! (n1 - 1)%nat = Line true t true /\
  c2.1 = c1.1 /\ c2.2 = incr_hits c1.2.
Proof.
  intros HE HSE Htr Hset c c1 c2 cs1 n1.
  set (a := Access Store t set).
  assert (Htr1 : in_range S_ (tr ++ [a]))
    by (apply Forall_app; split; [done|by constructor]).
  set (sets1 := reached E S_ (tr ++ [a])).
  assert (Hc1 : c1.1 = flatten (Z.to_nat E) sets1).
  { unfold c1, c. rewrite <- run_accesses_snoc. by apply reachable_flatten. }
  assert (Hlast : exists v, sets1 !!! Z.to_nat set = v ++ [(t, true)]).
  { pose proof (reachable_step_set E S_ HE tr a Htr Hset) as Hs.
    cbn [acc_set acc_tag acc_op a] in Hs. unfold sets1. rewrite Hs.
    apply lru_step_store_last. }
  destruct Hlast as (v & Hlast).
  assert (Hnd : NoDup (map fst (v ++ [(t, true)]))).
  { rewrite <- Hlast. apply (recency_NoDup (tr ++ [a]) set).
    by apply (abs_run_recency _ S_). }
  assert (Hcs1 : cs1 = repr (Z.to_nat E) (v ++ [(t, true)])).
  { unfold cs1, c1, c. rewrite <- run_accesses_snoc, reachable_set by done.
    by rewrite <- Hlast. }
  assert (Hstep : c2 = (c1.1, incr_hits c1.2)).
  { unfold c2. rewrite (surjective_pairing c1) at 1. rewrite Hc1.
    apply (step_load_mru E B S_ HE HSE t set sets1 _ v true); try done.
    - apply reached_length.
    - by apply reached_bounded. }
  unfold n1. rewrite Hcs1, count_valid_repr, Hstep, length_app.
  cbn [length fst snd]. split_and!; [lia| |done..].
  rewrite repr_snoc. by apply lookup_total_at_eq; lens.
Qed.

Lemma X8_witness :
  let c := run_accesses 2 1 (initial 1 2) [Access Load 1 0; Access Load 2 0] in
  let c1 := step 2 1 c (Access Store 1 0) in
  let c2 := step 2 1 c1 (Access Load 1 0) in
  let cs1 := cache_set_of c1.1 0 2 in
  let n1 := count_lines valid cs1 in
  (0 < n1)%nat /\
  cs1 !!! (n1 - 1)%nat = Line true 1 true /\
  c2.1 = c1.1 /\ c2.2 = incr_hits c1.2.
Proof.
  apply (X8_store_then_load 1 2 1 [Access Load 1 0; Access Load 2 0] 1 0).
  - lia.
  - reflexivity.
  - solve_in_range.
  - lia.
Defined.

(** * Further properties of the parser *)








Lemma fgets_chars_no_newline (k : nat) (file : list ascii) :
  mem_ascii nl (take k file) = false ->
  fgets_chars k file = (take k file, drop k file).
Proof.
  revert file. induction k as [|k IH]; intros [|c file]; try done.
  cbn [take drop fgets_chars]. unfold mem_ascii. cbn [existsb].
  fold (mem_ascii nl (take k file)). intros H.
  apply orb_false_elim in H as [Hc H].
  unfold ascii_eqb in *. rewrite Ascii.eqb_sym, Hc.
  by rewrite (IH file H).
Qed.

Lemma mem_take_while (c : ascii) (p : ascii -> bool) (l : list ascii) :
  mem_ascii c l = false -> mem_ascii c (take_while p l) = false.
Proof.
  induction l as [|x l IH]; [done|]. unfold mem_ascii. cbn [existsb take_while].
  intros H. apply orb_false_elim in H as [Hx H].
  destruct (p x); [|done]. cbn [existsb]. rewrite Hx. by apply IH.
Qed.

Lemma parse_line_no_newline (s b : Z) (linebuf : list ascii) :
  mem_ascii nl linebuf = false -> parse_line s b linebuf = None.
Proof.
  intros H. unfold parse_line, cstring.
  by rewrite (mem_take_while nl _ linebuf H).
Qed.

(** X11.  A trace whose first 29 characters hold no newline (a last line
    without its newline, or a line too long for the buffer) is a parse
    error: [process_trace_file] returns 1 and has touched neither the cache
    nor the statistics. *)
Theorem X11_line_without_newline_is_rejected (cache : list line)
    (s E b B : Z) (file : list ascii) (stats : csim_stats) :
  file <> [] -> mem_ascii nl (take 29 file) = false ->
  process_trace_file cache s E b B (Some file) stats = (1, cache, stats).
Proof.
  intros Hne Hnl. unfold process_trace_file.
  destruct file as [|c file]; [done|]. cbn [length process_lines].
  unfold fgets. change (LINELEN - 1)%nat with 29%nat.
  rewrite (fgets_chars_no_newline 29 (c :: file) Hnl).
  by rewrite parse_line_no_newline.
Qed.

Lemma X11_witness :
  process_trace_file (init_cache 1) 0 1 0 1
    (Some (list_ascii_of_string "L 1,1")) init_stats =
  (1, init_cache 1, init_stats).
Proof.
  apply (X11_line_without_newline_is_rejected (init_cache 1) 0 1 0 1
           (list_ascii_of_string "L 1,1") init_stats).
  - discriminate.
  - reflexivity.
Defined.

(** * Further properties of the address decomposition *)

Lemma block_of_address (s b addr : Z) :
  0 <= s -> 0 <= b -> s + b <= 64 ->
  Z.shiftr addr b = tag_of s b addr * 2 ^ s + set_index s b addr.
Proof.
  intros Hs Hb Hsb.
  assert (Hset : set_index s b addr = Z.shiftr addr b mod 2 ^ s).
  { unfold set_index. destruct (Z.eqb_spec s 0) as [->|Hne].
    - by rewrite Z.mod_1_r.
    - apply shift_formula; lia. }
  assert (Htag : tag_of s b addr = Z.shiftr addr b / 2 ^ s).
  { unfold tag_of. rewrite (Z.add_comm s b), <- Z.shiftr_shiftr by lia.
    by rewrite (Z.shiftr_div_pow2 _ s) by lia. }
  rewrite Hset, Htag.
  assert (0 < 2 ^ s) by (apply Z.pow_pos_nonneg; lia).
  rewrite (Z.div_mod (Z.shiftr addr b) (2 ^ s)) at 1 by lia. lia.
Qed.

(** X12.  The tag and the set index the parser computes identify the block
    of an address: for [s + b < 64] and a 64-bit address, the address is
    [tag * 2^(s+b) + set * 2^b] plus its offset in the block; the set index
    is below [2^s] and the tag below [2^(64-s-b)]; and two addresses get the
    same tag and the same set index exactly when they lie in the same
    block. *)
Theorem X12_tag_and_set_identify_the_block (s b addr addr' : Z) :
  0 <= s -> 0 <= b -> s + b < 64 ->
  0 <= addr < 2 ^ 64 -> 0 <= addr' < 2 ^ 64 ->
  addr = tag_of s b addr * 2 ^ (s + b) + set_index s b addr * 2 ^ b
         + addr mod 2 ^ b /\
  0 <= set_index s b addr < 2 ^ s /\
  0 <= tag_of s b addr < 2 ^ (64 - s - b) /\
  ((tag_of s b addr = tag_of s b addr' /\
    set_index s b addr = set_index s b addr') <->
   Z.shiftr addr b = Z.shiftr addr' b).
Proof.
  intros Hs Hb Hsb Ha Ha'.
  assert (H2s : 0 < 2 ^ s) by (apply Z.pow_pos_nonneg; lia).
  assert (H2b : 0 < 2 ^ b) by (apply Z.pow_pos_nonneg; lia).
  pose proof (block_of_address s b addr Hs Hb ltac:(lia)) as Hblk.
  pose proof (block_of_address s b addr' Hs Hb ltac:(lia)) as Hblk'.
  pose proof (set_index_range s b addr ltac:(lia)) as Hr.
  pose proof (set_index_range s b addr' ltac:(lia)) as Hr'.
  split_and!.
  - rewrite (Z.div_mod addr (2 ^ b)) at 1 by lia.
    rewrite <- Z.shiftr_div_pow2, Hblk, Z.pow_add_r by lia. lia.
  - lia.
  - lia.
  - unfold tag_of. rewrite Z.shiftr_div_pow2 by lia.
    apply Z.div_pos; [lia|apply Z.pow_pos_nonneg; lia].
  - unfold tag_of. rewrite Z.shiftr_div_pow2 by lia.
    apply Z.div_lt_upper_bound; [apply Z.pow_pos_nonneg; lia|].
    rewrite <- Z.pow_add_r by lia.
    replace (s + b + (64 - s - b)) with 64 by lia. lia.
  - split.
    + intros [Ht Hi]. by rewrite Hblk, Hblk', Ht, Hi.
    + intros Heq. rewrite Heq in Hblk. rewrite Hblk' in Hblk.
      assert (tag_of s b addr' = tag_of s b addr) by nia. lia.
Qed.

Lemma X12_witness :
  0x1B = tag_of 2 2 0x1B * 2 ^ (2 + 2) + set_index 2 2 0x1B * 2 ^ 2
         + 0x1B mod 2 ^ 2 /\
  0 <= set_index 2 2 0x1B < 2 ^ 2 /\
  0 <= tag_of 2 2 0x1B < 2 ^ (64 - 2 - 2) /\
  ((tag_of 2 2 0x1B = tag_of 2 2 0x19 /\
    set_index 2 2 0x1B = set_index 2 2 0x19) <->
   Z.shiftr 0x1B 2 = Z.shiftr 0x19 2).
Proof. apply (X12_tag_and_set_identify_the_block 2 2 0x1B 0x19); lia. Defined.

(** * Further properties of a whole run *)







(** * Writing a trace and reading it back *)
























Example format_trace_example :
  format_trace [Record_ Store 0x7ff0005c8 8; Record_ Load 0 1024] =
  trace_of_lines ["S 7ff0005c8,8"; "L 0,1024"]%string.
Proof. by vm_compute. Qed.

(** * The options of [main] *)

(** The variables after a loop that runs to its end, from any variables:
    an option read at least once holds the value of its last argument, an
    option never read keeps what it had. *)
Lemma option_loop_vars (opts : list (ascii * list ascii)) (v0 v : main_vars) :
  option_loop v0 opts = inl v ->
  last_arg "h" opts = None /\
  v_trace_file v = from_option Some (v_trace_file v0) (last_arg "t" opts) /\
  match last_arg "s" opts with
  | Some a => atoi a = Some (v_s v) /\ v_S v = int_of_pow2 (v_s v)
  | None => v_s v = v_s v0 /\ v_S v = v_S v0
  end /\
  match last_arg "b" opts with
  | Some a => atoi a = Some (v_b v) /\ v_B v = int_of_pow2 (v_b v)
  | None => v_b v = v_b v0 /\ v_B v = v_B v0
  end /\
  match last_arg "E" opts with
  | Some a => atoi a = Some (v_E v)
  | None => v_E v = v_E v0
  end.
Proof.
  revert v0. induction opts as [|[opt optarg] opts IH]; intros v0.
  - intros [= <-]. done.
  - cbn [option_loop last_arg].
    destruct (option_step v0 opt optarg) as [v1|r] eqn:Hstep; [|done].
    intros Hloop. destruct (IH v1 Hloop) as (Hh & Ht & Hs & Hb & HE).
    clear IH Hloop. unfold option_step in Hstep.
    rewrite Hh. unfold ascii_eqb in Hstep.
    destruct (Ascii.eqb_spec opt "h") as [->|Hnh]; [done|].
    destruct (Ascii.eqb_spec opt "v") as [->|Hnv].
    { simplify_eq. cbn. split; [done|].
      by destruct (last_arg "t" opts), (last_arg "s" opts),
        (last_arg "b" opts), (last_arg "E" opts). }
    destruct (Ascii.eqb_spec opt "s") as [->|Hns].
    { destruct (atoi optarg) as [n|] eqn:Hn; [|done]. simplify_eq. cbn in *.
      split; [done|].
      by destruct (last_arg "t" opts), (last_arg "s" opts),
        (last_arg "b" opts), (last_arg "E" opts); destruct_and?;
        split_and?; congruence. }
    destruct (Ascii.eqb_spec opt "b") as [->|Hnb].
    { destruct (atoi optarg) as [n|] eqn:Hn; [|done]. simplify_eq. cbn in *.
      split; [done|].
      by destruct (last_arg "t" opts), (last_arg "s" opts),
        (last_arg "b" opts), (last_arg "E" opts); destruct_and?;
        split_and?; congruence. }
    destruct (Ascii.eqb_spec opt "E") as [->|HnE].
    { destruct (atoi optarg) as [n|] eqn:Hn; [|done]. simplify_eq. cbn in *.
      split; [done|].
      by destruct (last_arg "t" opts), (last_arg "s" opts),
        (last_arg "b" opts), (last_arg "E" opts); destruct_and?;
        split_and?; congruence. }
    destruct (Ascii.eqb_spec opt "t") as [->|Hnt]; [|done].
    simplify_eq. cbn in *. split; [done|].
    by destruct (last_arg "t" opts), (last_arg "s" opts),
      (last_arg "b" opts), (last_arg "E" opts); cbn in *; destruct_and?;
      split_and?; congruence.
Qed.

(** X16.  When the option loop of [main] runs to its end, no [-h] was
    read, the trace file is the argument of the last [-t] (no file without
    one), and [s], [b] and [E] are the [atoi] values of the arguments of the
    last [-s], [-b] and [-E]: a later option overrides an earlier one.  An
    option never read leaves its variable as declared: [s], [b] and [E] are
    0, and [S] and [B] have no value. *)
Theorem X16_last_option_wins (opts : list (ascii * list ascii))
    (v : main_vars) :
  option_loop initial_vars opts = inl v ->
  last_arg "h" opts = None /\
  v_trace_file v = last_arg "t" opts /\
  match last_arg "s" opts with
  | Some a => atoi a = Some (v_s v) /\ v_S v = int_of_pow2 (v_s v)
  | None => v_s v = 0 /\ v_S v = None
  end /\
  match last_arg "b" opts with
  | Some a => atoi a = Some (v_b v) /\ v_B v = int_of_pow2 (v_b v)
  | None => v_b v = 0 /\ v_B v = None
  end /\
  match last_arg "E" opts with
  | Some a => atoi a = Some (v_E v)
  | None => v_E v = 0
  end.
Proof.
  intros Hloop.
  destruct (option_loop_vars opts initial_vars v Hloop)
    as (Hh & Ht & Hs & Hb & HE).
  split_and!; try done. rewrite Ht. by destruct (last_arg "t" opts).
Qed.

Lemma X16_witness :
  let opts := [("s", ["1"]); ("t", ["a"]); ("v", []); ("s", ["3"]);
               ("E", ["2"])]%char in
  let v := Vars 3 (Some 8) 2 0 None (Some ["a"%char]) in
  last_arg "h" opts = None /\
  v_trace_file v = last_arg "t" opts /\
  match last_arg "s" opts with
  | Some a => atoi a = Some (v_s v) /\ v_S v = int_of_pow2 (v_s v)
  | None => v_s v = 0 /\ v_S v = None
  end /\
  match last_arg "b" opts with
  | Some a => atoi a = Some (v_b v) /\ v_B v = int_of_pow2 (v_b v)
  | None => v_b v = 0 /\ v_B v = None
  end /\
  match last_arg "E" opts with
  | Some a => atoi a = Some (v_E v)
  | None => v_E v = 0
  end.
Proof.
  apply (X16_last_option_wins
           [("s", ["1"]); ("t", ["a"]); ("v", []); ("s", ["3"]);
            ("E", ["2"])]%char
           (Vars 3 (Some 8) 2 0 None (Some ["a"%char]))).
  reflexivity.
Defined.



(** X18.  A missing [-s] or [-b] is not caught: when the option loop runs
    to its end without having read one of them, while [-t] was read, [E] is
    at least 1 and [s] and [b] pass the checks, [main] goes past both
    checks and uses [S] or [B], which was never given a value. *)
Theorem X18_missing_s_or_b_is_not_caught (opts : list (ascii * list ascii))
    (fs : list ascii -> option (list ascii)) (v : main_vars) :
  option_loop initial_vars opts = inl v ->
  is_null (last_arg "s" opts) || is_null (last_arg "b" opts) = true ->
  is_null (last_arg "t" opts) = false ->
  1 <= v_E v -> 0 <= v_s v -> 0 <= v_b v -> v_s v + v_b v <= 64 ->
  csim opts fs = Ran Undefined.
Proof.
  intros Hloop Hsb Ht HE Hs Hb Hsum.
  destruct (option_loop_vars opts initial_vars v Hloop)
    as (_ & Htf & HS & HB & _).
  unfold csim, main_after_options. rewrite Hloop, Htf.
  destruct (last_arg "t" opts) as [path|]; [|done]. cbn [from_option is_null].
  assert (Himin : INT_MIN = -2147483648) by reflexivity.
  assert (Himax : INT_MAX = 2147483647) by reflexivity.
  destruct (Z.leb_spec INT_MIN (v_s v + v_b v)); [|lia].
  destruct (Z.leb_spec (v_s v + v_b v) INT_MAX); [|lia].
  destruct (Z.gtb_spec (v_s v + v_b v) 64); [lia|].
  destruct (Z.ltb_spec (v_s v) 0); [lia|].
  destruct (Z.leb_spec (v_E v) 0); [lia|].
  destruct (Z.ltb_spec (v_b v) 0); [lia|]. cbn [andb negb orb].
  destruct (last_arg "s" opts); destruct (last_arg "b" opts); try done.
  - destruct HB as [_ ->]. by destruct (v_S v).
  - by destruct HS as [_ ->].
  - by destruct HS as [_ ->].
Qed.

Lemma X18_witness :
  csim [("E", ["1"]); ("b", ["4"]); ("t", ["a"])]%char (fun _ => Some []) =
  Ran Undefined.
Proof.
  apply (X18_missing_s_or_b_is_not_caught
           [("E", ["1"]); ("b", ["4"]); ("t", ["a"])]%char (fun _ => Some [])
           (Vars 0 None 1 4 (Some 16) (Some ["a"%char]))).
  - reflexivity.
  - reflexivity.
  - reflexivity.
  - simpl. lia.
  - simpl. lia.
  - simpl. lia.
  - simpl. lia.
Defined.
